(** * workspace-context-mcp: the user service, the validators and the
      rate limiter of [test_project/src/api.js]

    A shallow embedding of the units of [api.js]:

    - [UserService] (the static [users] Map, the [nextId] counter and the
      five methods), as a small state-and-exception monad over a record of
      the two static fields and a clock;
    - [ValidationUtils] (a regular-expression test and two length checks),
      over strings of UTF-16 code units;
    - [rateLimiter] (the closure over the [requests] Map), as a function of
      the request key, the reading of [Date.now()] and the Map;
    - the route handlers of [APIServer] over the service, with [parseInt]
      on the id of the route, as functions from the request and the state
      to the response and the state.

    Idealisations, stated once: the finite JavaScript numbers of the
    service are modelled by [Z] (ids, lengths and millisecond instants
    stay far below 2^53, where the two agree), NaN and the two infinities
    are values of their own; the string [new Date().toISOString()] is represented by the
    instant it renders, [VIso ms], the rendering being one-to-one on
    instants; [async] methods are their synchronous bodies. *)

From stdpp Require Import gmap strings list fin_maps sorting.

Local Open Scope Z_scope.

(** ** JavaScript values stored in records *)

Inductive value :=
  | VUndefined
  | VNull
  | VBool (b : bool)
  | VNum (n : Z)
  | VStr (s : string)
  | VIso (ms : Z)
  | VNaN
  | VInf (negative : bool).

#[global] Instance value_eq_dec : EqDecision value.
Proof. solve_decision. Defined.

(** A plain object: own string-keyed properties. *)
Abbreviation obj := (gmap string value).

(** [o.k]: a missing property reads as [undefined]. *)
Definition prop (o : obj) (k : string) : value := default VUndefined (o !! k).

(** [{...a, ...b}]: properties of [b] win over those of [a]. *)
Definition spread2 (a b : obj) : obj := b ∪ a.

(** The instant of a timestamp property, when it is one. *)
Definition instant (v : value) : option Z :=
  match v with VIso ms => Some ms | _ => None end.

(** ** The JavaScript [Map]: keyed by SameValueZero, iterated in insertion
    order.  [set] on a present key replaces the value where the key stands;
    on an absent key it appends. *)
Module JsMap.

Definition t := list (value * obj).

Definition empty : t := [].

Fixpoint get (k : value) (m : t) : option obj :=
  match m with
  | [] => None
  | (k', v) :: m' => if decide (k = k') then Some v else get k m'
  end.

Definition has (k : value) (m : t) : bool :=
  match get k m with Some _ => true | None => false end.

Fixpoint set (k : value) (v : obj) (m : t) : t :=
  match m with
  | [] => [(k, v)]
  | (k', v') :: m' =>
      if decide (k = k') then (k', v) :: m' else (k', v') :: set k v m'
  end.

Fixpoint delete (k : value) (m : t) : t :=
  match m with
  | [] => []
  | (k', v') :: m' =>
      if decide (k = k') then m' else (k', v') :: delete k m'
  end.

Definition keys (m : t) : list value := m.*1.
Definition values (m : t) : list obj := m.*2.

End JsMap.

(** ** The monad of the service: state, clock reads and [throw] *)

Inductive error := Error (message : string).

Inductive result (A : Type) :=
  | Return (a : A)
  | Throw (e : error).
Arguments Return {A} a.
Arguments Throw {A} e.

(** [users] and [nextId] are the static fields of [UserService]; [reads]
    counts the [new Date()] evaluated so far. *)
Record world := World {
  users : JsMap.t;
  nextId : Z;
  reads : nat
}.

Definition M (A : Type) : Type := world → result A * world.

#[global] Instance M_ret : MRet M := λ A a w, (Return a, w).
#[global] Instance M_bind : MBind M := λ A B f m w,
  match m w with
  | (Return a, w') => f a w'
  | (Throw e, w') => (Throw e, w')
  end.

Definition throw {A} (e : error) : M A := λ w, (Throw e, w).

(** [this.nextId++] *)
Definition nextId_post_increment : M Z :=
  λ w, (Return (nextId w), World (users w) (nextId w + 1) (reads w)).

Definition users_get (k : value) : M (option obj) :=
  λ w, (Return (JsMap.get k (users w)), w).
Definition users_has (k : value) : M bool :=
  λ w, (Return (JsMap.has k (users w)), w).
Definition users_set (k : value) (v : obj) : M unit :=
  λ w, (Return tt, World (JsMap.set k v (users w)) (nextId w) (reads w)).
Definition users_delete (k : value) : M unit :=
  λ w, (Return tt, World (JsMap.delete k (users w)) (nextId w) (reads w)).
Definition users_values : M (list obj) :=
  λ w, (Return (JsMap.values (users w)), w).

Section UserService.

(** The system clock: [clock n] is the instant seen by the [n]-th
    [new Date()] of the process. *)
Variable clock : nat → Z.

(** [new Date().toISOString()] *)
Definition new_Date_toISOString : M value :=
  λ w, (Return (VIso (clock (reads w))),
        World (users w) (nextId w) (S (reads w))).

Definition getAllUsers : M (list obj) :=
  users_values.

Definition createUser (userData : obj) : M obj :=
  id ← nextId_post_increment;
  createdAt ← new_Date_toISOString;
  updatedAt ← new_Date_toISOString;
  let user :=
    <["updatedAt" := updatedAt]>
      (<["createdAt" := createdAt]>
         (spread2 {["id" := VNum id]} userData)) in
  users_set (prop user "id") user;;
  mret user.

(** The method returns the Map's answer: the record, or [undefined]
    ([None]) for an absent id. *)
Definition getUserById (id : value) : M (option obj) :=
  users_get id.

Definition updateUser (id : value) (userData : obj) : M obj :=
  user ← users_get id;
  match user with
  | None => throw (Error "User not found")
  | Some user =>
      updatedAt ← new_Date_toISOString;
      let updatedUser :=
        <["updatedAt" := updatedAt]> (spread2 user userData) in
      users_set id updatedUser;;
      mret updatedUser
  end.

Definition deleteUser (id : value) : M unit :=
  present ← users_has id;
  if negb present then throw (Error "User not found")
  else users_delete id.

End UserService.

(** The service as the module leaves it: no user, [nextId = 1]. *)
Definition initial : world := World JsMap.empty 1 0.

(** ** Sequences of calls on the service *)

Inductive op :=
  | Create (userData : obj)
  | Update (id : value) (userData : obj)
  | Delete (id : value)
  | GetById (id : value)
  | GetAll.

(** What the caller of a method sees. *)
Inductive reply :=
  | Created (user : obj)
  | Updated (user : obj)
  | Deleted
  | Found (user : option obj)
  | Listed (all : list obj)
  | Failed (e : error).

Definition settle {A} (f : A → reply) (r : result A * world) : reply * world :=
  match r with
  | (Return a, w) => (f a, w)
  | (Throw e, w) => (Failed e, w)
  end.

Definition perform (clock : nat → Z) (o : op) (w : world) : reply * world :=
  match o with
  | Create userData => settle Created (createUser clock userData w)
  | Update id userData => settle Updated (updateUser clock id userData w)
  | Delete id => settle (λ _, Deleted) (deleteUser id w)
  | GetById id => settle Found (getUserById id w)
  | GetAll => settle Listed (getAllUsers w)
  end.

Fixpoint run (clock : nat → Z) (ops : list op) (w : world) : list reply * world :=
  match ops with
  | [] => ([], w)
  | o :: ops' =>
      let '(r, w1) := perform clock o w in
      let '(rs, w2) := run clock ops' w1 in
      (r :: rs, w2)
  end.

(** The ids of the records the [Create] calls of a run returned, in call
    order. *)
Fixpoint created_ids (rs : list reply) : list value :=
  match rs with
  | [] => []
  | Created user :: rs' => prop user "id" :: created_ids rs'
  | _ :: rs' => created_ids rs'
  end.

Definition is_create (o : op) : bool :=
  match o with Create _ => true | _ => false end.

(** A field map without the key [k]. *)
Definition lacks (k : string) (userData : obj) : Prop := userData !! k = None.

(** No field map of the run carries an [id] property. *)
Definition supplies_no_id (o : op) : Prop :=
  match o with
  | Create userData | Update _ userData => lacks "id" userData
  | _ => True
  end.

(** No [Create] of the run carries an [id] property. *)
Definition create_without_id (o : op) : Prop :=
  match o with
  | Create userData => lacks "id" userData
  | _ => True
  end.

(** The number of [Create] calls of a run. *)
Definition creates (ops : list op) : nat := length (List.filter is_create ops).

(** Numbers in increasing order; no other value is below another. *)
Definition value_lt (a b : value) : Prop :=
  match a, b with
  | VNum x, VNum y => x < y
  | _, _ => False
  end.

(** The ids of the records a listing shows. *)
Definition listed_ids (w : world) : list value :=
  (λ user : obj, prop user "id") <$> JsMap.values (users w).

(** Every record stands under its own [id], a number the counter has
    passed, and the keys of the Map increase. *)
Definition tidy (w : world) : Prop :=
  Forall (λ e : value * obj,
            prop e.2 "id" = e.1 ∧ ∃ n, e.1 = VNum n ∧ n < nextId w) (users w)
  ∧ StronglySorted value_lt (JsMap.keys (users w)).

(** The instant in the [updatedAt] field of the record under [k]. *)
Definition updatedAt_of (w : world) (k : value) : option Z :=
  JsMap.get k (users w) ≫= λ user, instant (prop user "updatedAt").

(** The keys of the Map are distinct and every [updatedAt] is a reading
    the clock has already given. *)
Definition stamped (clock : nat → Z) (w : world) : Prop :=
  NoDup (JsMap.keys (users w))
  ∧ ∀ k user, JsMap.get k (users w) = Some user →
      ∃ i : nat, (i < reads w)%nat ∧ prop user "updatedAt" = VIso (clock i).

(** A call that leaves identity and creation time to the service: its
    field map carries no [id] and, for an update, no [createdAt]. *)
Definition quiet (o : op) : Prop :=
  match o with
  | Create userData => lacks "id" userData
  | Update _ userData => lacks "id" userData ∧ lacks "createdAt" userData
  | _ => True
  end.

(** A clock that never runs backwards. *)
Definition nondecreasing (clock : nat → Z) : Prop :=
  ∀ n : nat, clock n ≤ clock (S n).

(** [a] is a timestamp strictly after, respectively not before, the
    timestamp [b]. *)
Definition later_than (a b : value) : Prop :=
  match instant a, instant b with
  | Some x, Some y => y < x
  | _, _ => False
  end.

Definition not_before (a b : value) : Prop :=
  match instant a, instant b with
  | Some x, Some y => y ≤ x
  | _, _ => False
  end.

(** ** ValidationUtils *)

Module Validation.

(** A JavaScript string: its UTF-16 code units. *)
Definition jsstring := list N.

(** The code units of an ASCII literal. *)
Fixpoint lit (s : string) : jsstring :=
  match s with
  | EmptyString => []
  | String a s' => Ascii.N_of_ascii a :: lit s'
  end.

(** The arguments considered: [undefined], [null], the booleans and the
    strings.  Numbers, arrays and other objects are not modelled. *)
Inductive jsval :=
  | JUndefined
  | JNull
  | JBool (b : bool)
  | JString (s : jsstring).

(** ToBoolean *)
Definition truthy (v : jsval) : bool :=
  match v with
  | JUndefined | JNull => false
  | JBool b => b
  | JString [] => false
  | JString (_ :: _) => true
  end.

(** [a && b]: the left operand when it is falsy, else the right one. *)
Definition js_and (a b : jsval) : jsval := if truthy a then b else a.

(** ToString, applied by [RegExp.prototype.test] to its argument. *)
Definition ToString (v : jsval) : jsstring :=
  match v with
  | JUndefined => lit "undefined"
  | JNull => lit "null"
  | JBool true => lit "true"
  | JBool false => lit "false"
  | JString s => s
  end.

(** [v.length] where the property access does not throw: the number of
    code units of a string, [undefined] ([None]) for a boolean. *)
Definition length_of (v : jsval) : option Z :=
  match v with
  | JString s => Some (Z.of_nat (length s))
  | _ => None
  end.

(** [x >= n] and [x <= n]; a comparison with [undefined] is false. *)
Definition js_ge (x : option Z) (n : Z) : bool :=
  match x with Some l => n <=? l | None => false end.
Definition js_le (x : option Z) (n : Z) : bool :=
  match x with Some l => l <=? n | None => false end.

(** The class escape [\s]: WhiteSpace and LineTerminator code units. *)
Definition is_space (c : N) : bool :=
  ((9 <=? c) && (c <=? 13) || (c =? 32) || (c =? 160) || (c =? 5760)
   || (8192 <=? c) && (c <=? 8202) || (c =? 8232) || (c =? 8233)
   || (c =? 8239) || (c =? 8287) || (c =? 12288) || (c =? 65279))%N.

(** The fragment of regular expressions the module uses. *)
Inductive class_item :=
  | CSpace
  | CChar (c : N).

Inductive atom :=
  | ALit (c : N)
  | AClass (negated : bool) (items : list class_item).

Inductive piece :=
  | POne (a : atom)
  | PPlus (a : atom).

Record regexp := RegExp {
  bol : bool;
  pieces : list piece;
  eol : bool
}.

Definition item_matches (i : class_item) (c : N) : bool :=
  match i with
  | CSpace => is_space c
  | CChar d => (c =? d)%N
  end.

Definition atom_matches (a : atom) (c : N) : bool :=
  match a with
  | ALit d => (c =? d)%N
  | AClass negated items =>
      xorb negated (existsb (λ i, item_matches i c) items)
  end.

(** [a+] followed by the continuation [k]: the longest run is tried
    first, then shorter ones. *)
Fixpoint one_or_more (a : atom) (k : jsstring → bool) (s : jsstring) : bool :=
  match s with
  | [] => false
  | c :: s' => atom_matches a c && (one_or_more a k s' || k s')
  end.

Fixpoint match_here (at_end : bool) (ps : list piece) : jsstring → bool :=
  match ps with
  | [] => λ s, if at_end then bool_decide (s = []) else true
  | POne a :: ps' => λ s,
      match s with
      | [] => false
      | c :: s' => atom_matches a c && match_here at_end ps' s'
      end
  | PPlus a :: ps' => one_or_more a (match_here at_end ps')
  end.

Fixpoint search (at_end : bool) (ps : list piece) (s : jsstring) : bool :=
  match_here at_end ps s
  || match s with [] => false | _ :: s' => search at_end ps s' end.

(** [r.test(s)] on a string. *)
Definition test (r : regexp) (s : jsstring) : bool :=
  if bol r then match_here (eol r) (pieces r) s
  else search (eol r) (pieces r) s.

Definition at_sign : N := 64.
Definition dot : N := 46.

(** [[^\s@]] *)
Definition not_space_at : atom := AClass true [CSpace; CChar at_sign].

(** [/^[^\s@]+@[^\s@]+\.[^\s@]+$/] *)
Definition emailRegex : regexp :=
  RegExp true
    [PPlus not_space_at; POne (ALit at_sign); PPlus not_space_at;
     POne (ALit dot); PPlus not_space_at]
    true.

Definition validateEmail (email : jsval) : bool :=
  test emailRegex (ToString email).

Definition validateUsername (username : jsval) : jsval :=
  js_and (js_and username (JBool (js_ge (length_of username) 3)))
         (JBool (js_le (length_of username) 50)).

Definition validatePassword (password : jsval) : jsval :=
  js_and password (JBool (js_ge (length_of password) 8)).

(** The shape the specification gives an address: [local@domain.tld],
    the three parts non-empty and free of white space and of [@]. *)
Definition plain (c : N) : Prop := is_space c = false ∧ c ≠ at_sign.

Definition email_shape (s : jsstring) : Prop :=
  ∃ loc domain tld : jsstring,
    s = loc ++ [at_sign] ++ domain ++ [dot] ++ tld
    ∧ loc ≠ [] ∧ domain ≠ [] ∧ tld ≠ []
    ∧ Forall plain loc ∧ Forall plain domain ∧ Forall plain tld.

End Validation.

(** ** rateLimiter *)

Module RateLimiter.

Inductive outcome :=
  | Status429
  | Next.

(** The default arguments of [rateLimiter]. *)
Definition default_windowMs : Z := 15 * 60 * 1000.
Definition default_max : Z := 100.

(** [rateLimiter(windowMs, max)] is a function of a request: here it is
    applied to one whose [req.ip] is [key] while [Date.now()] reads [now];
    [requests] is the Map of the closure. *)
Definition rateLimiter (windowMs max : Z) (key : string) (now : Z)
    (requests : gmap string (list Z)) : outcome * gmap string (list Z) :=
  let windowStart := now - windowMs in
  let requests :=
    match requests !! key with
    | Some _ => requests
    | None => <[key := []]> requests
    end in
  let userRequests := default [] (requests !! key) in
  let validRequests :=
    filter (λ time : Z, time > windowStart) userRequests in
  if Z.of_nat (length validRequests) >=? max then (Status429, requests)
  else (Next, <[key := validRequests ++ [now]]> requests).

(** The Map after a sequence of requests, each a key and a clock
    reading, starting from the Map [requests]. *)
Fixpoint serve (windowMs max : Z) (calls : list (string * Z))
    (requests : gmap string (list Z)) : gmap string (list Z) :=
  match calls with
  | [] => requests
  | (key, now) :: calls' =>
      serve windowMs max calls' (rateLimiter windowMs max key now requests).2
  end.

(** The outcomes of a sequence of requests, in order. *)
Fixpoint outcomes (windowMs max : Z) (calls : list (string * Z))
    (requests : gmap string (list Z)) : list outcome :=
  match calls with
  | [] => []
  | (key, now) :: calls' =>
      (rateLimiter windowMs max key now requests).1
      :: outcomes windowMs max calls' (rateLimiter windowMs max key now requests).2
  end.

(** The stored timestamps of a key, none when the key was never seen. *)
Definition stored (requests : gmap string (list Z)) (key : string) : list Z :=
  default [] (requests !! key).

(** The timestamps of [l] inside the window that ends at [now]. *)
Definition pruned (windowMs now : Z) (l : list Z) : list Z :=
  filter (λ time : Z, time > now - windowMs) l.

(** No key holds more than [max] timestamps (none when [max] is not
    positive). *)
Definition bounded (max : Z) (requests : gmap string (list Z)) : Prop :=
  ∀ key l, requests !! key = Some l → Z.of_nat (length l) ≤ Z.max max 0.

End RateLimiter.

(** The requests of [key] that were let through in a sequence of
    requests, oldest first. *)
Fixpoint passed (windowMs max : Z) (key : string) (calls : list (string * Z))
    (requests : gmap string (list Z)) : list Z :=
  match calls with
  | [] => []
  | (k, now) :: calls' =>
      match (RateLimiter.rateLimiter windowMs max k now requests).1 with
      | RateLimiter.Next => if decide (k = key) then [now] else []
      | RateLimiter.Status429 => []
      end
      ++ passed windowMs max key calls'
           (RateLimiter.rateLimiter windowMs max k now requests).2
  end.

(** The timestamps of [l] in the window of length [windowMs] that ends at
    [t], the end included. *)
Definition within (windowMs t : Z) (l : list Z) : list Z :=
  filter (λ time : Z, t - windowMs < time ∧ time ≤ t) l.

(** The requests of a sequence that come from [key]. *)
Definition from_key (key : string) (calls : list (string * Z)) : list (string * Z) :=
  filter (λ call : string * Z, call.1 = key) calls.

(** ** Counting the replies of a run *)

Definition is_created (r : reply) : bool :=
  match r with Created _ => true | _ => false end.

Definition is_deleted (r : reply) : bool :=
  match r with Deleted => true | _ => false end.

(** ** parseInt *)

(** [parseInt(string)] with no radix, on a string: leading white space is
    skipped, a sign is read, [0x] or [0X] switches to radix 16, and the
    longest run of digits is the integer, of which the result is the
    nearest Number; with no digit the result is NaN. *)

Fixpoint skip_space (s : Validation.jsstring) : Validation.jsstring :=
  match s with
  | [] => []
  | c :: s' => if Validation.is_space c then skip_space s' else s
  end.

Definition strip_sign (s : Validation.jsstring) : Z * Validation.jsstring :=
  match s with
  | [] => (1, [])
  | c :: s' =>
      if (c =? 45)%N then (-1, s')
      else if (c =? 43)%N then (1, s')
      else (1, s)
  end.

Definition strip_prefix (s : Validation.jsstring) : Z * Validation.jsstring :=
  match s with
  | c0 :: c1 :: s' =>
      if ((c0 =? 48) && ((c1 =? 120) || (c1 =? 88)))%N then (16, s')
      else (10, s)
  | _ => (10, s)
  end.

(** The value of a code unit as a digit: [0]-[9], [a]-[z], [A]-[Z]. *)
Definition digit_value (c : N) : option Z :=
  if ((48 <=? c) && (c <=? 57))%N then Some (Z.of_N c - 48)
  else if ((97 <=? c) && (c <=? 122))%N then Some (Z.of_N c - 87)
  else if ((65 <=? c) && (c <=? 90))%N then Some (Z.of_N c - 55)
  else None.

Definition digit_in (radix : Z) (c : N) : option Z :=
  match digit_value c with
  | Some d => if d <? radix then Some d else None
  | None => None
  end.

(** The digits of the longest prefix of [s] made of radix-[radix] digits. *)
Fixpoint digits_prefix (radix : Z) (s : Validation.jsstring) : list Z :=
  match s with
  | [] => []
  | c :: s' =>
      match digit_in radix c with
      | Some d => d :: digits_prefix radix s'
      | None => []
      end
  end.

Definition number_of (radix : Z) (digits : list Z) : Z :=
  foldl (λ n d, n * radix + d) 0 digits.

(** The Number nearest to the integer [n]: [n] itself up to 2^53, else the
    nearest double (53 significant bits, ties to the even one), or an
    infinity from 2^1024 on. *)
Definition nearest_double (n : Z) : value :=
  let a := Z.abs n in
  if a <=? 9007199254740992 then VNum n
  else
    let e := Z.log2 a - 52 in
    let q := a / 2 ^ e in
    let r := a mod 2 ^ e in
    let half := 2 ^ (e - 1) in
    let q' := if (half <? r) || ((r =? half) && Z.odd q) then q + 1 else q in
    if 2 ^ 1024 <=? q' * 2 ^ e then VInf (n <? 0)
    else VNum (Z.sgn n * (q' * 2 ^ e)).

Definition parseInt (s : Validation.jsstring) : value :=
  let '(sign, s1) := strip_sign (skip_space s) in
  let '(radix, s2) := strip_prefix s1 in
  match digits_prefix radix s2 with
  | [] => VNaN
  | digits => nearest_double (sign * number_of radix digits)
  end.

(** The code unit of a decimal digit. *)
Definition digit_char (d : Z) : N := Z.to_N (48 + d).

(** ** APIServer: the route handlers *)

Module APIServer.

(** What a handler reads of the request: [req.params.id] (the empty string
    on routes without the parameter) and [req.body]. *)
Record request := Request {
  params_id : Validation.jsstring;
  body : obj
}.

(** What [res] is left with: the status ([res.json] alone answers 200) and
    the JSON sent. *)
Inductive json :=
  | JsonHealth (timestamp : value)
  | JsonUser (user : obj)
  | JsonUsers (all : list obj)
  | JsonError (message : string)
  | Empty.

Record response := Response {
  status : Z;
  sent : json
}.

Definition message_of (e : error) : string :=
  match e with Error message => message end.

(** [healthCheck] has no [catch]: it reads the clock once and answers. *)
Definition healthCheck (clock : nat → Z) (req : request) (w : world) : response * world :=
  (Response 200 (JsonHealth (VIso (clock (reads w)))),
   World (users w) (nextId w) (S (reads w))).

Definition getUsers (req : request) (w : world) : response * world :=
  match getAllUsers w with
  | (Return all, w') => (Response 200 (JsonUsers all), w')
  | (Throw e, w') => (Response 500 (JsonError (message_of e)), w')
  end.

Definition createUser (clock : nat → Z) (req : request) (w : world) : response * world :=
  match createUser clock (body req) w with
  | (Return user, w') => (Response 201 (JsonUser user), w')
  | (Throw e, w') => (Response 400 (JsonError (message_of e)), w')
  end.

Definition getUserById (req : request) (w : world) : response * world :=
  match getUserById (parseInt (params_id req)) w with
  | (Return None, w') => (Response 404 (JsonError "User not found"), w')
  | (Return (Some user), w') => (Response 200 (JsonUser user), w')
  | (Throw e, w') => (Response 500 (JsonError (message_of e)), w')
  end.

Definition updateUser (clock : nat → Z) (req : request) (w : world) : response * world :=
  match updateUser clock (parseInt (params_id req)) (body req) w with
  | (Return user, w') => (Response 200 (JsonUser user), w')
  | (Throw e, w') => (Response 400 (JsonError (message_of e)), w')
  end.

Definition deleteUser (req : request) (w : world) : response * world :=
  match deleteUser (parseInt (params_id req)) w with
  | (Return _, w') => (Response 204 Empty, w')
  | (Throw e, w') => (Response 500 (JsonError (message_of e)), w')
  end.

(** The routes [setupRoutes] registers. *)
Inductive route :=
  | GET_health
  | GET_users
  | POST_users
  | GET_users_id
  | PUT_users_id
  | DELETE_users_id.

Definition setupRoutes (clock : nat → Z) (r : route) : request → world → response * world :=
  match r with
  | GET_health => healthCheck clock
  | GET_users => getUsers
  | POST_users => createUser clock
  | GET_users_id => getUserById
  | PUT_users_id => updateUser clock
  | DELETE_users_id => deleteUser
  end.

(** The server on a sequence of requests, each on its route. *)
Fixpoint serve (clock : nat → Z) (reqs : list (route * request)) (w : world) :
    list response * world :=
  match reqs with
  | [] => ([], w)
  | (r, req) :: reqs' =>
      let '(res, w1) := setupRoutes clock r req w in
      let '(ress, w2) := serve clock reqs' w1 in
      (res :: ress, w2)
  end.

(** The record the id of the request addresses, if any. *)
Definition addressed (req : request) (w : world) : option obj :=
  JsMap.get (parseInt (params_id req)) (users w).

End APIServer.

(** * Properties *)

(** ** The Map *)

Lemma get_set_eq k v m : JsMap.get k (JsMap.set k v m) = Some v.
Proof.
  induction m as [|[k' v'] m IH]; simpl.
  - by rewrite decide_True.
  - destruct (decide (k = k')) as [->|Hne]; simpl.
    + by rewrite decide_True.
    + by rewrite decide_False.
Qed.

Lemma get_set_ne k k' v m :
  k ≠ k' → JsMap.get k' (JsMap.set k v m) = JsMap.get k' m.
Proof.
  intros Hne. induction m as [|[k0 v0] m IH]; simpl.
  - rewrite decide_False; [done | congruence].
  - destruct (decide (k = k0)) as [->|Hk]; simpl.
    + rewrite !decide_False; [done | congruence | congruence].
    + destruct (decide (k' = k0)); [done | apply IH].
Qed.

Lemma get_None_not_key k m : JsMap.get k m = None ↔ k ∉ JsMap.keys m.
Proof.
  unfold JsMap.keys. induction m as [|[k' v'] m IH]; simpl.
  - split; [intros _; apply not_elem_of_nil | done].
  - rewrite not_elem_of_cons. destruct (decide (k = k')) as [->|Hne].
    + split; [done | intros [? _]; done].
    + rewrite IH. tauto.
Qed.

Lemma keys_set_present k v m :
  is_Some (JsMap.get k m) → JsMap.keys (JsMap.set k v m) = JsMap.keys m.
Proof.
  unfold JsMap.keys. induction m as [|[k' v'] m IH]; simpl.
  - intros [? ?]; done.
  - destruct (decide (k = k')); simpl; [done |].
    intros H. f_equal. by apply IH.
Qed.

Lemma set_fresh k v m : JsMap.get k m = None → JsMap.set k v m = m ++ [(k, v)].
Proof.
  induction m as [|[k' v'] m IH]; simpl; [done |].
  destruct (decide (k = k')); [done |]. intros H. by rewrite IH.
Qed.

(** A present key stands at one place; [set] rewrites the value there and
    [delete] removes the entry, the other entries keep their order. *)
Lemma get_Some_split k old m :
  JsMap.get k m = Some old →
  ∃ m1 m2, m = m1 ++ (k, old) :: m2
    ∧ JsMap.get k m1 = None
    ∧ (∀ v, JsMap.set k v m = m1 ++ (k, v) :: m2)
    ∧ JsMap.delete k m = m1 ++ m2.
Proof.
  induction m as [|[k' v'] m IH]; simpl; [done |].
  destruct (decide (k = k')) as [->|Hne].
  - intros [= ->]. by exists [], m.
  - intros H. destruct (IH H) as (m1 & m2 & Hm & Hm1 & Hset & Hdel).
    exists ((k', v') :: m1), m2. repeat split.
    + simpl. by rewrite Hm.
    + simpl. by rewrite decide_False.
    + intros v. simpl. by rewrite Hset.
    + simpl. by rewrite Hdel.
Qed.

Lemma has_true k m : JsMap.has k m = true ↔ is_Some (JsMap.get k m).
Proof.
  unfold JsMap.has. destruct (JsMap.get k m); split; done.
Qed.

Lemma has_false k m : JsMap.has k m = false ↔ JsMap.get k m = None.
Proof. unfold JsMap.has. by destruct (JsMap.get k m). Qed.

(** ** The methods, one equation each *)

(** The record [createUser] builds from the counter, the two clock
    readings and the field map. *)
Lemma createUser_eq clock (userData : obj) (w : world) :
  let user : obj :=
    <["updatedAt" := VIso (clock (S (reads w)))]>
      (<["createdAt" := VIso (clock (reads w))]>
         (userData ∪ {["id" := VNum (nextId w)]})) in
  createUser clock userData w =
    (Return user,
     World (JsMap.set (prop user "id") user (users w))
           (nextId w + 1) (S (S (reads w)))).
Proof. reflexivity. Qed.

Lemma updateUser_present clock id (userData old : obj) (w : world) :
  JsMap.get id (users w) = Some old →
  let merged : obj :=
    <["updatedAt" := VIso (clock (reads w))]> (userData ∪ old) in
  updateUser clock id userData w =
    (Return merged,
     World (JsMap.set id merged (users w)) (nextId w) (S (reads w))).
Proof.
  intros H. unfold updateUser, mbind, M_bind, users_get. simpl. by rewrite H.
Qed.

Lemma updateUser_absent clock id (userData : obj) (w : world) :
  JsMap.get id (users w) = None →
  updateUser clock id userData w = (Throw (Error "User not found"), w).
Proof.
  intros H. unfold updateUser, mbind, M_bind, users_get. simpl. by rewrite H.
Qed.

Lemma deleteUser_present id (w : world) :
  is_Some (JsMap.get id (users w)) →
  deleteUser id w =
    (Return tt, World (JsMap.delete id (users w)) (nextId w) (reads w)).
Proof.
  intros H. apply has_true in H.
  unfold deleteUser, mbind, M_bind, users_has. simpl. by rewrite H.
Qed.

Lemma deleteUser_absent id (w : world) :
  JsMap.get id (users w) = None →
  deleteUser id w = (Throw (Error "User not found"), w).
Proof.
  intros H. apply has_false in H.
  unfold deleteUser, mbind, M_bind, users_has. simpl. by rewrite H.
Qed.

(** Case on whether [id] is in the Map of [w], and rewrite the calls of
    [updateUser] and [deleteUser] on it, in the goal and the hypotheses, by
    their equations. *)
Ltac by_presence id w :=
  let Hget := fresh "Hget" in
  destruct (JsMap.get id (users w)) as [?old|] eqn:Hget;
  [ rewrite ?(updateUser_present _ _ _ _ _ Hget),
            ?(deleteUser_present _ _ (mk_is_Some _ _ Hget)) in *
  | rewrite ?(updateUser_absent _ _ _ _ Hget),
            ?(deleteUser_absent _ _ Hget) in * ].

(** The [id] of a created record: the caller's, when the field map has
    one, else the counter. *)
Lemma created_id clock (userData : obj) (w : world) :
  ∃ user w', createUser clock userData w = (Return user, w')
    ∧ prop user "id" = default (VNum (nextId w)) (userData !! "id")
    ∧ nextId w' = nextId w + 1.
Proof.
  eexists _, _. split; [apply createUser_eq |]. split; [| done].
  unfold prop. rewrite !lookup_insert_ne by done.
  rewrite lookup_union. destruct (userData !! "id") as [v|]; simpl.
  - by rewrite lookup_singleton_eq.
  - by rewrite lookup_singleton_eq.
Qed.

(** ** Lookups and failures *)

(** C6: [getUserById], [updateUser] and [deleteUser] signal a missing user
    exactly when the id is absent from the Map at the time of the call
    ([getUserById] by returning [undefined], the other two by throwing
    [Error "User not found"]); on a present id all three succeed, so a
    failed update or delete is never reported as a success.  Ids such as
    [0], or one beyond the counter, are absent after a first create. *)
Theorem C6_not_found_iff_absent clock (id : value) (userData : obj) (w : world) :
  ((getUserById id w).1 = Return None ↔ JsMap.get id (users w) = None)
  ∧ ((updateUser clock id userData w).1 = Throw (Error "User not found")
     ↔ JsMap.get id (users w) = None)
  ∧ ((deleteUser id w).1 = Throw (Error "User not found")
     ↔ JsMap.get id (users w) = None)
  ∧ (∀ user, JsMap.get id (users w) = Some user →
       (getUserById id w).1 = Return (Some user)
       ∧ (∃ merged, (updateUser clock id userData w).1 = Return merged)
       ∧ (deleteUser id w).1 = Return tt)
  ∧ (let w1 := (createUser clock ∅ initial).2 in
     (getUserById (VNum 0) w1).1 = Return None
     ∧ (updateUser clock (VNum 2) userData w1).1 = Throw (Error "User not found")
     ∧ (deleteUser (VNum 2) w1).1 = Throw (Error "User not found")).
Proof.
  split; [| split; [| split; [| split]]].
  - unfold getUserById, users_get; simpl. split; [by intros [= ->] | by intros ->].
  - by_presence id w; [simpl; split; done | done].
  - by_presence id w; [simpl; split; done | done].
  - intros user Hget. split; [| split].
    + unfold getUserById, users_get; simpl. by rewrite Hget.
    + rewrite (updateUser_present _ _ _ _ _ Hget). simpl. by eexists.
    + by rewrite deleteUser_present by (by rewrite Hget).
  - intros w1. split; [reflexivity | split; [| reflexivity]].
    rewrite updateUser_absent; [done | reflexivity].
Qed.

(** C9: when [updateUser] or [deleteUser] throws, the Map, the counter and
    the clock are exactly what they were before the call. *)
Theorem C9_failure_leaves_world clock (id : value) (userData : obj) (w : world) :
  (∀ e w', updateUser clock id userData w = (Throw e, w') → w' = w)
  ∧ (∀ e w', deleteUser id w = (Throw e, w') → w' = w).
Proof.
  split; intros e w' H.
  - by_presence id w; [done | congruence].
  - by_presence id w; [done | congruence].
Qed.

Lemma C9_failure_leaves_world_witness :
  (updateUser (λ n, Z.of_nat n) (VNum 7) {["name" := VStr "a"]} initial).2 = initial
  ∧ (deleteUser (VNum 7) initial).2 = initial.
Proof.
  split.
  - exact (proj1 (C9_failure_leaves_world (λ n, Z.of_nat n) (VNum 7)
                    {["name" := VStr "a"]} initial) _ _ eq_refl).
  - exact (proj2 (C9_failure_leaves_world (λ n, Z.of_nat n) (VNum 7)
                    ∅ initial) _ _ eq_refl).
Defined.

(** ** Timestamps at creation *)

(** C10: whatever the field map holds, also under the keys [createdAt] and
    [updatedAt], the record [createUser] stores and returns carries the
    clock's readings taken during the call in both fields (two successive
    [new Date()]), never the caller's values. *)
Theorem C10_create_overrides_timestamps clock (userData : obj) (w : world) :
  ∃ user w',
    createUser clock userData w = (Return user, w')
    ∧ user !! "createdAt" = Some (VIso (clock (reads w)))
    ∧ user !! "updatedAt" = Some (VIso (clock (S (reads w))))
    ∧ JsMap.get (prop user "id") (users w') = Some user.
Proof.
  eexists _, _. split; [apply createUser_eq |]. split; [| split].
  - rewrite lookup_insert_ne by done. by rewrite lookup_insert_eq.
  - by rewrite lookup_insert_eq.
  - simpl. apply get_set_eq.
Qed.

(** ** Listing *)


(** ** Updates *)

(** C5, as the code has it: on a present id [updateUser] merges the field
    map over the record key by key, sets [updatedAt] to the clock's
    reading, stores the merged record under the id and returns it.
    Creating [{name: "a", email: "x"}] and then updating with
    [{email: "y"}] gives name ["a"], email ["y"], [createdAt] as created,
    and an [updatedAt] that is not before [createdAt] when the clock does
    not run backwards; it is strictly later exactly when the clock moved
    between the create and the update. *)
Theorem C5_update_merges clock (w : world) :
  (∀ (id : value) (fields old : obj),
     JsMap.get id (users w) = Some old →
     ∃ merged w',
       updateUser clock id fields w = (Return merged, w')
       ∧ JsMap.get id (users w') = Some merged
       ∧ merged !! "updatedAt" = Some (VIso (clock (reads w)))
       ∧ (∀ k, k ≠ "updatedAt" →
            merged !! k = match fields !! k with
                          | Some v => Some v
                          | None => old !! k
                          end))
  ∧ (∃ created w1 updated w2,
       createUser clock {["name" := VStr "a"; "email" := VStr "x"]} w
         = (Return created, w1)
       ∧ updateUser clock (prop created "id") {["email" := VStr "y"]} w1
         = (Return updated, w2)
       ∧ prop updated "name" = VStr "a"
       ∧ prop updated "email" = VStr "y"
       ∧ prop updated "createdAt" = prop created "createdAt"
       ∧ prop created "createdAt" = VIso (clock (reads w))
       ∧ prop updated "updatedAt" = VIso (clock (S (S (reads w))))
       ∧ (nondecreasing clock →
            not_before (prop updated "updatedAt") (prop updated "createdAt"))
       ∧ (later_than (prop updated "updatedAt") (prop updated "createdAt")
            ↔ clock (reads w) < clock (S (S (reads w))))).
Proof.
  split.
  - intros id fields old Hget. eexists _, _.
    split; [apply (updateUser_present _ _ _ _ _ Hget) |]. simpl.
    split; [apply get_set_eq |]. split; [by rewrite lookup_insert_eq |].
    intros k Hk. rewrite lookup_insert_ne by done. rewrite lookup_union.
    by destruct (fields !! k), (old !! k).
  - pose (created :=
      (<["updatedAt" := VIso (clock (S (reads w)))]>
         (<["createdAt" := VIso (clock (reads w))]>
            ({["name" := VStr "a"; "email" := VStr "x"]}
               ∪ {["id" := VNum (nextId w)]}))) : obj).
    pose (updated :=
      (<["updatedAt" := VIso (clock (S (S (reads w))))]>
         ({["email" := VStr "y"]} ∪ created)) : obj).
    assert (Hid : prop created "id" = VNum (nextId w)) by reflexivity.
    assert (Hc : prop created "createdAt" = VIso (clock (reads w))) by reflexivity.
    assert (Hu : prop updated "updatedAt" = VIso (clock (S (S (reads w)))))
      by reflexivity.
    assert (Hcu : prop updated "createdAt" = VIso (clock (reads w))) by reflexivity.
    exists created, (World (JsMap.set (prop created "id") created (users w))
                       (nextId w + 1) (S (S (reads w)))), updated.
    eexists. split; [apply createUser_eq |].
    split.
    { apply updateUser_present. simpl. apply get_set_eq. }
    rewrite Hu, Hcu, Hc.
    split; [reflexivity |]. split; [reflexivity |]. split; [reflexivity |].
    split; [reflexivity |]. split; [reflexivity |]. split.
    + intros Hmono. unfold not_before. simpl.
      specialize (Hmono (reads w)) as H1. specialize (Hmono (S (reads w))) as H2. lia.
    + unfold later_than. simpl. done.
Qed.

Lemma C5_update_merges_witness :
  ∃ merged w',
    updateUser (λ n, Z.of_nat n) (VNum 1) {["email" := VStr "y"]}
      (World [(VNum 1, {["id" := VNum 1; "email" := VStr "x"]})] 2 2)
    = (Return merged, w')
    ∧ merged !! "email" = Some (VStr "y")
    ∧ merged !! "id" = Some (VNum 1).
Proof.
  destruct (proj1 (C5_update_merges (λ n, Z.of_nat n)
             (World [(VNum 1, {["id" := VNum 1; "email" := VStr "x"]})] 2 2))
             (VNum 1) {["email" := VStr "y"]}
             {["id" := VNum 1; "email" := VStr "x"]} eq_refl)
    as (merged & w' & Hrun & _ & _ & Hkeys).
  exists merged, w'. split; [exact Hrun |]. split.
  - exact (Hkeys "email" ltac:(done)).
  - exact (Hkeys "id" ltac:(done)).
Defined.

(** C5, as stated, fails on a clock that reads the same millisecond at
    the create and at the update: the updated record has [updatedAt]
    equal to [createdAt], not strictly later. *)
Lemma C5_same_millisecond_not_later :
  let clock := λ _ : nat, 1700000000000 in
  ∃ created w1 updated w2,
    createUser clock {["name" := VStr "a"; "email" := VStr "x"]} initial
      = (Return created, w1)
    ∧ updateUser clock (VNum 1) {["email" := VStr "y"]} w1
      = (Return updated, w2)
    ∧ prop updated "createdAt" = VIso 1700000000000
    ∧ prop updated "updatedAt" = VIso 1700000000000
    ∧ ¬ later_than (prop updated "updatedAt") (prop updated "createdAt").
Proof.
  intros clock. eexists _, _, _, _.
  split; [apply createUser_eq |].
  split; [apply updateUser_present; reflexivity |].
  split; [reflexivity |]. split; [reflexivity |].
  intros H. vm_compute in H. discriminate H.
Qed.

(** ** Identity and creation time under caller-supplied keys *)

(** C1, at the failing input: a field map that carries [id] overrides the
    counter's value, so two creates return the same id, and an id freed by
    a delete is handed out again. *)
Theorem C1_supplied_id_repeats clock :
  created_ids (run clock [Create ∅; Create {["id" := VNum 1]}] initial).1
    = [VNum 1; VNum 1]
  ∧ created_ids
      (run clock [Create ∅; Delete (VNum 1); Create {["id" := VNum 1]}] initial).1
    = [VNum 1; VNum 1]
  ∧ JsMap.keys
      (users (run clock [Create ∅; Create {["id" := VNum 1]}] initial).2)
    = [VNum 1].
Proof. split; [reflexivity | split; reflexivity]. Qed.

(** C7, at the failing input: a create whose field map carries the [id]
    of a record of the Map replaces that record where it stands, so the
    listing shows the record created last before the one created second:
    the listing is not in the order of creation. *)
Theorem C7_colliding_create_listed_first clock :
  let w := (run clock [Create ∅; Create ∅; Create {["id" := VNum 1]}] initial).2 in
  (getAllUsers w).1
    = Return
        [<["updatedAt" := VIso (clock 5%nat)]>
           (<["createdAt" := VIso (clock 4%nat)]> {["id" := VNum 1]});
         <["updatedAt" := VIso (clock 3%nat)]>
           (<["createdAt" := VIso (clock 2%nat)]> {["id" := VNum 2]})]
  ∧ (λ user : obj, prop user "createdAt") <$> JsMap.values (users w)
    = [VIso (clock 4%nat); VIso (clock 2%nat)].
Proof. split; reflexivity. Qed.

(** C4, at the failing input: an update whose field map carries
    [createdAt] rewrites the creation time of the record. *)
Theorem C4_update_rewrites_createdAt clock :
  let w1 := (createUser clock ∅ initial).2 in
  let w2 := (updateUser clock (VNum 1) {["createdAt" := VStr "x"]} w1).2 in
  (JsMap.get (VNum 1) (users w1) ≫= (.!! "createdAt")) = Some (VIso (clock 0%nat))
  ∧ (JsMap.get (VNum 1) (users w2) ≫= (.!! "createdAt")) = Some (VStr "x").
Proof. split; reflexivity. Qed.

(** ** The rate limiter *)

Section RateLimiterFacts.

Import RateLimiter.

Variables windowMs max : Z.

Lemma handle_eq key now (requests : gmap string (list Z)) :
  let valid := pruned windowMs now (stored requests key) in
  rateLimiter windowMs max key now requests =
    if Z.of_nat (length valid) >=? max
    then (Status429,
          match requests !! key with
          | Some _ => requests
          | None => <[key := []]> requests
          end)
    else (Next, <[key := valid ++ [now]]> requests).
Proof.
  unfold rateLimiter, pruned, stored. destruct (requests !! key) as [l|] eqn:Hkey.
  - simpl. by rewrite Hkey.
  - simpl. rewrite lookup_insert_eq. simpl.
    destruct (_ >=? max); [done |]. by rewrite insert_insert_eq.
Qed.

(** A rejection leaves the timestamps of every key as they were. *)
Lemma handle_reject_stored key now (requests : gmap string (list Z)) :
  (rateLimiter windowMs max key now requests).1 = Status429 →
  ∀ k, stored (rateLimiter windowMs max key now requests).2 k = stored requests k.
Proof.
  rewrite handle_eq. simpl.
  destruct (_ >=? max); [| done]. simpl. intros _ k.
  destruct (requests !! key) as [l|] eqn:Hkey; [done |].
  unfold stored. destruct (decide (k = key)) as [->|Hne].
  - by rewrite lookup_insert_eq, Hkey.
  - by rewrite lookup_insert_ne.
Qed.

Lemma filter_keeps_all {A} (P : A → Prop) `{!∀ x, Decision (P x)} (l : list A) :
  (length l ≤ length (filter P l))%nat → filter P l = l.
Proof.
  induction l as [|x l IH]; [done |].
  rewrite filter_cons. destruct (decide (P x)); simpl.
  - intros Hlen. f_equal. apply IH. lia.
  - intros Hlen. pose proof (length_filter P l). lia.
Qed.

Lemma handle_bounded key now (requests : gmap string (list Z)) :
  bounded max requests → bounded max (rateLimiter windowMs max key now requests).2.
Proof.
  intros Hb. rewrite handle_eq. simpl.
  destruct (_ >=? max) eqn:Hfull; simpl.
  - destruct (requests !! key) eqn:Hkey; [done |].
    intros k l. destruct (decide (k = key)) as [->|Hne].
    + rewrite lookup_insert_eq. intros [= <-]. simpl. lia.
    + rewrite lookup_insert_ne by done. apply Hb.
  - intros k l. destruct (decide (k = key)) as [->|Hne].
    + rewrite lookup_insert_eq. intros [= <-].
      rewrite length_app. simpl. lia.
    + rewrite lookup_insert_ne by done. apply Hb.
Qed.

Lemma serve_bounded calls (requests : gmap string (list Z)) :
  bounded max requests → bounded max (serve windowMs max calls requests).
Proof.
  revert requests. induction calls as [|[key now] calls IH]; simpl; [done |].
  intros requests Hb. apply IH. by apply handle_bounded.
Qed.

(** C2: the handler lets the request through exactly when fewer than
    [max] stored timestamps of the key are strictly greater than
    [now - windowMs]; a timestamp equal to [now - windowMs] is outside the
    window; and when the request goes through, the Map holds for the key
    the pruned sequence followed by [now] (the other keys are left
    alone). *)
Theorem C2_window_decision key now (requests : gmap string (list Z)) :
  let valid := pruned windowMs now (stored requests key) in
  let after := rateLimiter windowMs max key now requests in
  (after.1 = Next ↔ Z.of_nat (length valid) < max)
  ∧ (after.1 = Status429 ↔ max ≤ Z.of_nat (length valid))
  ∧ (∀ t, t ∈ valid ↔ now - windowMs < t ∧ t ∈ stored requests key)
  ∧ sublist valid (stored requests key)
  ∧ ¬ (now - windowMs ∈ valid)
  ∧ (after.1 = Next → after.2 !! key = Some (valid ++ [now]))
  ∧ (∀ k, k ≠ key → stored after.2 k = stored requests k).
Proof.
  intros valid after. unfold after. rewrite handle_eq. fold valid.
  split; [| split; [| split; [| split; [| split; [| split]]]]].
  - destruct (_ >=? max) eqn:Hfull; simpl; split; try done; lia.
  - destruct (_ >=? max) eqn:Hfull; simpl; split; try done; lia.
  - intros t. unfold valid, pruned. rewrite list_elem_of_filter. split.
    + intros [H1 H2]. split; [lia | done].
    + intros [H1 H2]. split; [lia | done].
  - apply sublist_filter.
  - unfold valid, pruned. rewrite list_elem_of_filter. intros [H _]. lia.
  - destruct (_ >=? max); simpl; [done |]. intros _. by rewrite lookup_insert_eq.
  - intros k Hne. unfold stored.
    destruct (_ >=? max); simpl.
    + destruct (requests !! key); [done |]. by rewrite lookup_insert_ne.
    + by rewrite lookup_insert_ne.
Qed.

(** C3: when a request is rejected, the sequence the Map holds for the
    key after the call is the pruned one.  The rejecting branch returns
    before [requests.set], so the Map keeps the sequence it had; but the
    Map of a limiter never holds more than [max] timestamps for a key, so
    at a rejection every stored timestamp is inside the window and the
    stored sequence is the pruned sequence. *)
Theorem C3_reject_holds_pruned (calls : list (string * Z)) key now :
  let requests := serve windowMs max calls ∅ in
  (rateLimiter windowMs max key now requests).1 = Status429 →
  (rateLimiter windowMs max key now requests).2 !! key
    = Some (pruned windowMs now (stored requests key))
  ∧ pruned windowMs now (stored requests key) = stored requests key.
Proof.
  intros requests Hrej.
  assert (Hb : bounded max requests).
  { apply serve_bounded. intros k l. by rewrite lookup_empty. }
  assert (Hfull : pruned windowMs now (stored requests key) = stored requests key).
  { apply filter_keeps_all.
    rewrite handle_eq in Hrej. simpl in Hrej.
    destruct (_ >=? max) eqn:Hge; [| done].
    unfold stored in *. destruct (requests !! key) as [l|] eqn:Hkey; simpl in *.
    - specialize (Hb _ _ Hkey). unfold pruned in Hge. lia.
    - lia. }
  split; [| done]. rewrite Hfull.
  rewrite handle_eq. simpl. rewrite Hfull.
  rewrite handle_eq in Hrej. simpl in Hrej. rewrite Hfull in Hrej.
  destruct (_ >=? max); [| done]. simpl.
  unfold stored. destruct (requests !! key) as [l|] eqn:Hkey; simpl.
  - done.
  - by rewrite lookup_insert_eq.
Qed.

End RateLimiterFacts.

Lemma C3_reject_holds_pruned_witness :
  (RateLimiter.rateLimiter 1000 2 "10.0.0.1" 200
     (RateLimiter.serve 1000 2 [("10.0.0.1", 0); ("10.0.0.1", 100)] ∅)).1
    = RateLimiter.Status429
  ∧ (RateLimiter.rateLimiter 1000 2 "10.0.0.1" 200
       (RateLimiter.serve 1000 2 [("10.0.0.1", 0); ("10.0.0.1", 100)] ∅)).2
      !! "10.0.0.1" = Some [0; 100].
Proof.
  split; [reflexivity |].
  exact (proj1 (C3_reject_holds_pruned 1000 2
                  [("10.0.0.1", 0); ("10.0.0.1", 100)] "10.0.0.1" 200 eq_refl)).
Defined.

(** ** The validators *)

Section ValidationFacts.

Import Validation.

(** [a+] then [k]: a non-empty run of code units matching [a], followed
    by a rest that [k] accepts. *)
Lemma one_or_more_true a (k : jsstring → bool) (s : jsstring) :
  one_or_more a k s = true ↔
  ∃ s1 s2, s = s1 ++ s2 ∧ s1 ≠ []
    ∧ Forall (λ c, atom_matches a c = true) s1 ∧ k s2 = true.
Proof.
  induction s as [|c s IH]; simpl.
  - split; [done |]. intros (s1 & s2 & Hs & Hne & _).
    symmetry in Hs. apply app_eq_nil in Hs as [-> _]. done.
  - rewrite andb_true_iff, orb_true_iff, IH. split.
    + intros [Hc [(s1 & s2 & -> & Hne & Hall & Hk) | Hk]].
      * exists (c :: s1), s2. repeat split; [done | by constructor | done].
      * exists [c], s. repeat split; [done | by repeat constructor | done].
    + intros (s1 & s2 & Hs & Hne & Hall & Hk).
      destruct s1 as [|c1 s1]; [done |]. simpl in Hs.
      injection Hs as <- ->. inversion Hall as [|? ? Hc Hrest]; subst.
      split; [done |]. destruct s1 as [|c2 s1].
      * by right.
      * left. by exists (c2 :: s1), s2.
Qed.

Lemma not_space_at_plain c : atom_matches not_space_at c = true ↔ plain c.
Proof.
  unfold plain, not_space_at, at_sign. simpl.
  rewrite orb_false_r. destruct (is_space c); simpl; [split; [done | by intros [? _]] |].
  destruct (N.eqb_spec c 64); split; try done. by intros [_ ?].
Qed.

Lemma all_plain (s : jsstring) :
  Forall (λ c, atom_matches not_space_at c = true) s ↔ Forall plain s.
Proof. apply Forall_proper; [| done]. intros c. apply not_space_at_plain. Qed.

Lemma validateEmail_shape (s : jsstring) :
  validateEmail (JString s) = true ↔ email_shape s.
Proof.
  unfold validateEmail, test, emailRegex, email_shape. simpl.
  rewrite one_or_more_true. split.
  - intros (loc & rest & -> & Hloc & Hall1 & Hk).
    destruct rest as [|c rest]; [done |].
    apply andb_true_iff in Hk as [Hat Hk]. apply N.eqb_eq in Hat as ->.
    apply one_or_more_true in Hk as (domain & rest2 & -> & Hdom & Hall2 & Hk).
    destruct rest2 as [|c rest2]; [done |].
    apply andb_true_iff in Hk as [Hdot Hk]. apply N.eqb_eq in Hdot as ->.
    apply one_or_more_true in Hk as (tld & rest3 & -> & Htld & Hall3 & Hk).
    apply bool_decide_eq_true in Hk as ->.
    exists loc, domain, tld. rewrite app_nil_r.
    repeat split; try done; by apply all_plain.
  - intros (loc & domain & tld & -> & Hloc & Hdom & Htld & Hall1 & Hall2 & Hall3).
    exists loc, ([at_sign] ++ domain ++ [dot] ++ tld).
    repeat split; [done | by apply all_plain |]. simpl.
    rewrite ?N.eqb_refl. simpl. apply one_or_more_true.
    exists domain, ([dot] ++ tld).
    repeat split; [done | by apply all_plain |]. simpl.
    rewrite ?N.eqb_refl. simpl. apply one_or_more_true.
    exists tld, []. rewrite app_nil_r.
    repeat split; [done | by apply all_plain].
Qed.

Lemma validateUsername_true (v : jsval) :
  validateUsername v = JBool true ↔
  ∃ s, v = JString s ∧ (3 ≤ length s ≤ 50)%nat.
Proof.
  unfold validateUsername, js_and. split.
  - destruct v as [| |[|]|[|c s]]; simpl; try done.
    destruct (Z.leb_spec 3 (Z.of_nat (S (length s)))) as [H3|H3]; simpl; [| done].
    destruct (Z.leb_spec (Z.of_nat (S (length s))) 50) as [H50|H50]; [| done].
    intros _. exists (c :: s). split; [done |]. simpl. lia.
  - intros (s & -> & Hlen). destruct s as [|c s]; simpl in *; [lia |].
    destruct (Z.leb_spec 3 (Z.of_nat (S (length s)))) as [H3|H3]; simpl; [| lia].
    destruct (Z.leb_spec (Z.of_nat (S (length s))) 50) as [H50|H50]; [done | lia].
Qed.

Lemma validatePassword_true (v : jsval) :
  validatePassword v = JBool true ↔
  ∃ s, v = JString s ∧ (8 ≤ length s)%nat.
Proof.
  unfold validatePassword, js_and. split.
  - destruct v as [| |[|]|[|c s]]; simpl; try done.
    destruct (Z.leb_spec 8 (Z.of_nat (S (length s)))) as [H8|H8]; [| done].
    intros _. exists (c :: s). split; [done |]. simpl. lia.
  - intros (s & -> & Hlen). destruct s as [|c s]; simpl in *; [lia |].
    destruct (Z.leb_spec 8 (Z.of_nat (S (length s)))) as [H8|H8]; [done | lia].
Qed.

(** C8: the three validators are functions of their argument alone.
    [validateEmail] is true of a string exactly when it reads
    [local@domain.tld] with the three parts non-empty and free of white
    space and [@]; [validateUsername] is true exactly of the strings of 3
    to 50 code units, [validatePassword] exactly of those of at least 8
    (an absent or empty argument is never accepted); and the six examples
    of the specification evaluate as it says. *)
Theorem C8_validators :
  (∀ s, validateEmail (JString s) = true ↔ email_shape s)
  ∧ (∀ v, validateUsername v = JBool true
          ↔ ∃ s, v = JString s ∧ (3 ≤ length s ≤ 50)%nat)
  ∧ (∀ v, validatePassword v = JBool true
          ↔ ∃ s, v = JString s ∧ (8 ≤ length s)%nat)
  ∧ (∀ v, truthy (validateUsername v) = true ↔ validateUsername v = JBool true)
  ∧ (∀ v, truthy (validatePassword v) = true ↔ validatePassword v = JBool true)
  ∧ validateEmail (JString (lit "a@b.co")) = true
  ∧ validateEmail (JString (lit "a@b")) = false
  ∧ validateUsername (JString (lit "ab")) = JBool false
  ∧ validateUsername (JString (lit "abc")) = JBool true
  ∧ validatePassword (JString (lit "1234567")) = JBool false
  ∧ validatePassword (JString (lit "12345678")) = JBool true.
Proof.
  split; [apply validateEmail_shape |].
  split; [apply validateUsername_true |].
  split; [apply validatePassword_true |].
  split; [| split].
  - intros v. unfold validateUsername, js_and.
    destruct v as [| |[|]|[|c s]]; simpl; try done.
    destruct (3 <=? _); simpl; [| done].
    destruct (_ <=? 50); simpl; done.
  - intros v. unfold validatePassword, js_and.
    destruct v as [| |[|]|[|c s]]; simpl; try done.
    destruct (8 <=? _); simpl; done.
  - repeat split; reflexivity.
Qed.

End ValidationFacts.

(** ** The theorems at concrete inputs *)

Lemma C2_window_decision_witness :
  (RateLimiter.rateLimiter 1000 2 "10.0.0.1" 1100 {["10.0.0.1" := [100; 200]]}).2
    !! "10.0.0.1" = Some ([200] ++ [1100]).
Proof.
  assert (H := C2_window_decision 1000 2 "10.0.0.1" 1100 {["10.0.0.1" := [100; 200]]}).
  exact (proj1 (proj2 (proj2 (proj2 (proj2 (proj2 H))))) eq_refl).
Defined.

Lemma C6_not_found_iff_absent_witness :
  (deleteUser (VNum 1) (createUser (λ n, Z.of_nat n) ∅ initial).2).1 = Return tt.
Proof.
  assert (H := C6_not_found_iff_absent (λ n, Z.of_nat n) (VNum 1) ∅
                 (createUser (λ n, Z.of_nat n) ∅ initial).2).
  exact (proj2 (proj2 (proj1 (proj2 (proj2 (proj2 H))) _ eq_refl))).
Defined.


(** ** Runs whose field maps leave [id] alone *)

Lemma perform_create clock (userData : obj) (w : world) :
  lacks "id" userData →
  ∃ user w', perform clock (Create userData) w = (Created user, w')
    ∧ prop user "id" = VNum (nextId w)
    ∧ nextId w' = nextId w + 1
    ∧ users w' = JsMap.set (VNum (nextId w)) user (users w).
Proof.
  intros Hno. unfold perform. rewrite createUser_eq. simpl.
  match goal with |- context [Created ?u] => set (user := u) end.
  assert (Hid : prop user "id" = VNum (nextId w)).
  { unfold user, prop. rewrite !lookup_insert_ne by done.
    rewrite lookup_union, Hno. simpl. by rewrite lookup_singleton_eq. }
  eexists _, _. split; [done |]. rewrite Hid. done.
Qed.

(** A call that is not a [Create] returns no created record and leaves the
    counter alone. *)
Lemma perform_other clock (o : op) (w : world) :
  is_create o = false →
  (∀ rs, created_ids ((perform clock o w).1 :: rs) = created_ids rs)
  ∧ nextId (perform clock o w).2 = nextId w.
Proof.
  destruct o as [d|id d|id|id|]; simpl; [done | | | done | done]; intros _;
    by by_presence id w.
Qed.

Lemma run_cons clock (o : op) (ops : list op) (w : world) :
  run clock (o :: ops) w =
    ((perform clock o w).1 :: (run clock ops (perform clock o w).2).1,
     (run clock ops (perform clock o w).2).2).
Proof.
  simpl. destruct (perform clock o w) as [r w1]. simpl.
  by destruct (run clock ops w1).
Qed.

(** Ids are consecutive integers in call order, hence never repeated, in
    every run whose creates carry no [id] of their own: whatever updates,
    deletes and lookups come in between, the [N] created records have the
    ids [nextId], [nextId + 1], ..., [nextId + N - 1]. *)
Theorem created_ids_consecutive clock (ops : list op) (w : world) :
  Forall create_without_id ops →
  created_ids (run clock ops w).1
    = VNum <$> seqZ (nextId w) (Z.of_nat (creates ops))
  ∧ nextId (run clock ops w).2 = nextId w + Z.of_nat (creates ops)
  ∧ NoDup (created_ids (run clock ops w).1).
Proof.
  intros Hops.
  assert (H : created_ids (run clock ops w).1
                = VNum <$> seqZ (nextId w) (Z.of_nat (creates ops))
              ∧ nextId (run clock ops w).2 = nextId w + Z.of_nat (creates ops)).
  { revert w. induction Hops as [|o ops Ho Hops IH]; intros w.
    - unfold creates. simpl. split; [done | lia].
    - rewrite run_cons. cbn [fst snd]. destruct (is_create o) eqn:Hc.
      + destruct o as [d| | | |]; try done.
        destruct (perform_create clock d w Ho) as (user & w' & Hp & Hid & Hn & _).
        rewrite Hp. simpl. destruct (IH w') as [IH1 IH2].
        rewrite IH1, IH2, Hid, Hn. unfold creates. simpl.
        rewrite (seqZ_cons (nextId w)) by lia. rewrite fmap_cons.
        replace (Z.pred (Z.of_nat (S (length (List.filter is_create ops)))))
          with (Z.of_nat (length (List.filter is_create ops))) by lia.
        replace (Z.succ (nextId w)) with (nextId w + 1) by lia.
        split; [done | lia].
      + destruct (perform_other clock o w Hc) as [Hr Hn].
        rewrite Hr. destruct (IH (perform clock o w).2) as [IH1 IH2].
        rewrite IH1, IH2, Hn. unfold creates. simpl. by rewrite Hc. }
  destruct H as [H1 H2]. split; [done |]. split; [done |].
  rewrite H1. apply NoDup_fmap_2; [| apply NoDup_seqZ].
  intros x y. congruence.
Qed.

Lemma created_ids_consecutive_witness :
  created_ids
    (run (λ n, Z.of_nat n)
       [Create {["name" := VStr "a"]}; Delete (VNum 1); Create ∅] initial).1
  = [VNum 1; VNum 2].
Proof.
  refine (proj1 (created_ids_consecutive (λ n, Z.of_nat n)
            [Create {["name" := VStr "a"]}; Delete (VNum 1); Create ∅] initial _)).
  repeat constructor.
Defined.

(** ** Listing in creation order *)

Lemma tidy_fresh (w : world) (n : Z) :
  tidy w → nextId w ≤ n → JsMap.get (VNum n) (users w) = None.
Proof.
  intros [Hall _] Hn. apply get_None_not_key. unfold JsMap.keys.
  intros Hin. apply list_elem_of_fmap in Hin as ([k u] & Hk & He).
  rewrite Forall_forall in Hall. destruct (Hall _ He) as (_ & m & Hm & Hlt).
  simpl in *. subst k. injection Hm as <-. lia.
Qed.

Lemma tidy_listed_ids (w : world) :
  tidy w → listed_ids w = JsMap.keys (users w).
Proof.
  intros [Hall _]. unfold listed_ids, JsMap.values, JsMap.keys.
  induction Hall as [|[k u] m [Hid _] _ IH]; simpl; [done |].
  simpl in Hid. f_equal; [done | apply IH].
Qed.

Lemma merged_id clock (w : world) (fields old : obj) :
  lacks "id" fields →
  prop (<["updatedAt" := VIso (clock (reads w))]> (fields ∪ old)) "id"
    = prop old "id".
Proof.
  intros Hno. unfold prop. rewrite lookup_insert_ne by done.
  by rewrite lookup_union, Hno, (left_id None _).
Qed.

Lemma perform_tidy clock (o : op) (w : world) :
  supplies_no_id o → tidy w → tidy (perform clock o w).2.
Proof.
  intros Ho Ht. destruct o as [d|id d|id|id|]; cbn [supplies_no_id] in Ho;
    [| unfold perform | unfold perform | done | done].
  - destruct (perform_create clock d w Ho) as (user & w' & Hp & Hid & Hn & Hu).
    rewrite Hp. simpl.
    pose proof (tidy_fresh w (nextId w) Ht ltac:(lia)) as Hfresh.
    destruct Ht as [Hall Hsorted]. unfold tidy.
    rewrite Hu, Hn, (set_fresh _ _ _ Hfresh). split.
    + apply Forall_app. split.
      * eapply Forall_impl; [exact Hall |]. intros e (He & n & Hk & Hlt).
        split; [done |]. exists n. split; [done | lia].
      * constructor; [| constructor]. simpl. split; [done |].
        exists (nextId w). split; [done | lia].
    + unfold JsMap.keys. rewrite fmap_app. simpl.
      apply StronglySorted_app_2; [| done | repeat constructor].
      intros k1 k2 Hk1 Hk2. apply list_elem_of_singleton in Hk2 as ->.
      apply list_elem_of_fmap in Hk1 as ([k u] & Hk & He).
      rewrite Forall_forall in Hall. destruct (Hall _ He) as (_ & m & Hm & Hlt).
      simpl in *. subst. simpl. done.
  - by_presence id w.
    + simpl. destruct Ht as [Hall Hsorted]. split; simpl.
      * destruct (get_Some_split _ _ _ Hget) as (m1 & m2 & Hm & _ & Hset & _).
        rewrite Hset. rewrite Hm in Hall.
        apply Forall_app in Hall as [H1 H2]. apply Forall_cons in H2 as [H2 H3].
        apply Forall_app. split; [done |]. constructor; [| done].
        simpl in *. by rewrite merged_id.
      * rewrite keys_set_present by (by rewrite Hget). done.
    + done.
  - by_presence id w.
    + simpl. destruct Ht as [Hall Hsorted].
      destruct (get_Some_split _ _ _ Hget) as (m1 & m2 & Hm & _ & _ & Hdel).
      split; simpl; rewrite Hdel.
      * rewrite Hm in Hall.
        apply Forall_app in Hall as [H1 H2]. apply Forall_cons in H2 as [H2 H3].
        apply Forall_app. done.
      * unfold JsMap.keys in *. rewrite Hm in Hsorted.
        rewrite fmap_app in *. simpl in Hsorted.
        apply StronglySorted_app in Hsorted as (Hlt & Hs1 & Hs2).
        apply StronglySorted_cons in Hs2 as [_ Hs2].
        apply StronglySorted_app_2; [| done | done].
        intros k1 k2 Hk1 Hk2. apply Hlt; [done |]. by apply list_elem_of_further.
    + done.
Qed.

Lemma run_tidy clock (ops : list op) (w : world) :
  Forall supplies_no_id ops → tidy w → tidy (run clock ops w).2.
Proof.
  intros Hops. revert w. induction Hops as [|o ops Ho _ IH]; intros w Ht; [done |].
  rewrite run_cons. simpl. apply IH. by apply perform_tidy.
Qed.

(** In every run from the initial service whose field maps carry no [id],
    the records [getAllUsers] returns stand in increasing order of their
    ids, that is, in the order of their creation. *)
Theorem listing_in_creation_order clock (ops : list op) :
  Forall supplies_no_id ops →
  let w := (run clock ops initial).2 in
  StronglySorted value_lt (listed_ids w)
  ∧ listed_ids w = JsMap.keys (users w)
  ∧ getAllUsers w = (Return (JsMap.values (users w)), w).
Proof.
  intros Hops w.
  assert (Ht : tidy w).
  { apply run_tidy; [done |]. split; constructor. }
  split; [| split; [by apply tidy_listed_ids | done]].
  rewrite (tidy_listed_ids _ Ht). apply Ht.
Qed.

Lemma listing_in_creation_order_witness :
  StronglySorted value_lt
    (listed_ids
       (run (λ n, Z.of_nat n)
          [Create ∅; Create ∅; Update (VNum 1) {["name" := VStr "a"]};
           Create ∅; Delete (VNum 2)] initial).2).
Proof.
  refine (proj1 (listing_in_creation_order (λ n, Z.of_nat n)
            [Create ∅; Create ∅; Update (VNum 1) {["name" := VStr "a"]};
             Create ∅; Delete (VNum 2)] _)).
  repeat constructor.
Defined.

(** ** Change times *)

Lemma get_delete_ne k k' m :
  k ≠ k' → JsMap.get k' (JsMap.delete k m) = JsMap.get k' m.
Proof.
  intros Hne. induction m as [|[k0 v0] m IH]; simpl; [done |].
  destruct (decide (k = k0)) as [->|Hk]; simpl.
  - by rewrite decide_False by congruence.
  - destruct (decide (k' = k0)); [done | apply IH].
Qed.

Lemma get_delete_eq k m :
  NoDup (JsMap.keys m) → JsMap.get k (JsMap.delete k m) = None.
Proof.
  unfold JsMap.keys. induction m as [|[k0 v0] m IH]; simpl; [done |].
  intros Hnd. apply NoDup_cons in Hnd as [Hk0 Hnd].
  destruct (decide (k = k0)) as [->|Hk]; simpl.
  - by apply get_None_not_key.
  - rewrite decide_False by done. by apply IH.
Qed.

Lemma NoDup_keys_set k v m :
  NoDup (JsMap.keys m) → NoDup (JsMap.keys (JsMap.set k v m)).
Proof.
  intros Hnd. destruct (JsMap.get k m) as [old|] eqn:Hget.
  - rewrite keys_set_present by (by rewrite Hget). done.
  - rewrite (set_fresh _ _ _ Hget). unfold JsMap.keys in *.
    rewrite fmap_app. simpl. apply NoDup_app. split; [done |]. split.
    + intros x Hx Hk. apply list_elem_of_singleton in Hk as ->.
      by apply get_None_not_key in Hget.
    + apply NoDup_singleton.
Qed.

Lemma NoDup_keys_delete k m :
  NoDup (JsMap.keys m) → NoDup (JsMap.keys (JsMap.delete k m)).
Proof.
  unfold JsMap.keys. induction m as [|[k0 v0] m IH]; simpl; [done |].
  intros Hnd. apply NoDup_cons in Hnd as [Hk0 Hnd].
  destruct (decide (k = k0)) as [->|Hk]; simpl; [done |].
  apply NoDup_cons. split; [| by apply IH].
  intros Hin. apply Hk0. clear -Hin Hk.
  induction m as [|[k1 v1] m IH]; simpl in *; [done |].
  destruct (decide (k = k1)) as [->|Hk1]; simpl in *.
  - by apply list_elem_of_further.
  - apply elem_of_cons in Hin as [->|Hin]; [apply list_elem_of_here |].
    apply list_elem_of_further. by apply IH.
Qed.

Lemma nondecreasing_le clock (i j : nat) :
  nondecreasing clock → (i ≤ j)%nat → clock i ≤ clock j.
Proof.
  intros Hmono Hij. induction Hij as [|j Hij IH]; [lia |].
  specialize (Hmono j). lia.
Qed.

(** One call: the keys stay distinct, the clock is only read forward, and
    a record of the Map afterwards is either the record that stood there
    before or one stamped by a reading taken during the call. *)
Lemma perform_stamps clock (o : op) (w : world) :
  NoDup (JsMap.keys (users w)) →
  let w' := (perform clock o w).2 in
  NoDup (JsMap.keys (users w'))
  ∧ (reads w ≤ reads w')%nat
  ∧ ∀ k user, JsMap.get k (users w') = Some user →
      JsMap.get k (users w) = Some user
      ∨ ∃ i : nat, (reads w ≤ i < reads w')%nat
          ∧ prop user "updatedAt" = VIso (clock i).
Proof.
  intros Hnd. destruct o as [d|id d|id|id|]; unfold perform.
  - rewrite createUser_eq. simpl.
    split; [by apply NoDup_keys_set |]. split; [lia |].
    intros k user.
    match goal with |- context [JsMap.set ?key ?u _] =>
      destruct (decide (key = k)) as [<-|Hne] end.
    + rewrite get_set_eq. intros [= <-]. right. exists (S (reads w)).
      split; [lia |]. unfold prop. by rewrite lookup_insert_eq.
    + rewrite get_set_ne by done. by left.
  - by_presence id w.
    + simpl. split; [by apply NoDup_keys_set |]. split; [lia |].
      intros k user. destruct (decide (id = k)) as [<-|Hne].
      * rewrite get_set_eq. intros [= <-]. right. exists (reads w).
        split; [lia |]. unfold prop. by rewrite lookup_insert_eq.
      * rewrite get_set_ne by done. by left.
    + simpl. split; [done |]. split; [lia |]. intros k user H. by left.
  - by_presence id w.
    + simpl. split; [by apply NoDup_keys_delete |]. split; [lia |].
      intros k user. destruct (decide (id = k)) as [<-|Hne].
      * by rewrite get_delete_eq.
      * rewrite get_delete_ne by done. by left.
    + simpl. split; [done |]. split; [lia |]. intros k user H. by left.
  - simpl. split; [done |]. split; [lia |]. intros k user H. by left.
  - simpl. split; [done |]. split; [lia |]. intros k user H. by left.
Qed.

Lemma run_stamps clock (ops : list op) (w : world) :
  NoDup (JsMap.keys (users w)) →
  let w' := (run clock ops w).2 in
  NoDup (JsMap.keys (users w'))
  ∧ (reads w ≤ reads w')%nat
  ∧ ∀ k user, JsMap.get k (users w') = Some user →
      JsMap.get k (users w) = Some user
      ∨ ∃ i : nat, (reads w ≤ i < reads w')%nat
          ∧ prop user "updatedAt" = VIso (clock i).
Proof.
  revert w. induction ops as [|o ops IH]; intros w Hnd.
  - simpl. split; [done |]. split; [lia |]. intros k user H. by left.
  - rewrite run_cons. cbn [snd].
    destruct (perform_stamps clock o w Hnd) as (Hnd1 & Hr1 & Hstep).
    destruct (IH _ Hnd1) as (Hnd2 & Hr2 & Hrest).
    split; [done |]. split; [lia |]. intros k user Hget.
    destruct (Hrest _ _ Hget) as [Hsame | (i & Hi & Hstamp)].
    + destruct (Hstep _ _ Hsame) as [Hsame0 | (i & Hi & Hstamp)]; [by left |].
      right. exists i. split; [lia | done].
    + right. exists i. split; [lia | done].
Qed.

Lemma run_stamped clock (ops : list op) : stamped clock (run clock ops initial).2.
Proof.
  destruct (run_stamps clock ops initial) as (Hnd & Hr & Hrec); [constructor |].
  split; [done |]. intros k user Hget.
  destruct (Hrec _ _ Hget) as [Habs | (i & Hi & Hstamp)]; [done |].
  exists i. split; [lia | done].
Qed.

(** Under a clock that does not run backwards, the [updatedAt] of the
    record under a key never decreases, whatever calls (with whatever
    field maps) are made between two observations of it. *)
Theorem updatedAt_nondecreasing clock (before between : list op)
    (k : value) (t t' : Z) :
  nondecreasing clock →
  let w1 := (run clock before initial).2 in
  let w2 := (run clock between w1).2 in
  updatedAt_of w1 k = Some t →
  updatedAt_of w2 k = Some t' →
  t ≤ t'.
Proof.
  intros Hmono w1 w2. unfold updatedAt_of.
  destruct (JsMap.get k (users w1)) as [u1|] eqn:H1; [| done].
  destruct (JsMap.get k (users w2)) as [u2|] eqn:H2; [| done]. simpl.
  destruct (run_stamped clock before) as [Hnd Hst]. fold w1 in Hnd, Hst.
  destruct (Hst _ _ H1) as (i & Hi & Hu1).
  destruct (run_stamps clock between w1 Hnd) as (_ & _ & Hrec). fold w2 in Hrec.
  destruct (Hrec _ _ H2) as [Hsame | (j & Hj & Hu2)].
  - rewrite H1 in Hsame. injection Hsame as <-.
    intros Ht Ht'. rewrite Ht in Ht'. injection Ht' as <-. lia.
  - rewrite Hu1, Hu2. simpl. intros [= <-] [= <-].
    apply nondecreasing_le; [done | lia].
Qed.

Lemma updatedAt_nondecreasing_witness :
  updatedAt_of (run (λ n, Z.of_nat n) [Create ∅] initial).2 (VNum 1) = Some 1
  ∧ updatedAt_of
      (run (λ n, Z.of_nat n) [Update (VNum 1) {["updatedAt" := VStr "never"]}]
         (run (λ n, Z.of_nat n) [Create ∅] initial).2).2 (VNum 1) = Some 2
  ∧ 1 ≤ 2.
Proof.
  split; [reflexivity |]. split; [reflexivity |].
  refine (updatedAt_nondecreasing (λ n, Z.of_nat n) [Create ∅]
            [Update (VNum 1) {["updatedAt" := VStr "never"]}] (VNum 1) 1 2
            _ eq_refl eq_refl).
  intros n. lia.
Defined.

(** ** Creation times *)

Lemma quiet_supplies_no_id (o : op) : quiet o → supplies_no_id o.
Proof. destruct o; simpl; tauto. Qed.

Lemma perform_nextId_le clock (o : op) (w : world) :
  nextId w ≤ nextId (perform clock o w).2.
Proof.
  destruct (is_create o) eqn:Hc.
  - destruct o; try done. unfold perform. rewrite createUser_eq. simpl. lia.
  - destruct (perform_other clock o w Hc) as [_ ->]. lia.
Qed.

(** One quiet call: a record of the Map afterwards either stood there
    before with the same [createdAt], or is the record just created under
    the counter's value. *)
Lemma perform_createdAt clock (o : op) (w : world) :
  quiet o → NoDup (JsMap.keys (users w)) →
  ∀ k user', JsMap.get k (users (perform clock o w).2) = Some user' →
    (∃ user, JsMap.get k (users w) = Some user
             ∧ user' !! "createdAt" = user !! "createdAt")
    ∨ k = VNum (nextId w).
Proof.
  intros Hq Hnd k user'. destruct o as [d|id d|id|id|]; cbn [quiet] in Hq.
  - destruct (perform_create clock d w Hq) as (user & w' & Hp & _ & _ & Hu).
    rewrite Hp. simpl. rewrite Hu.
    destruct (decide (VNum (nextId w) = k)) as [<-|Hne]; [by right |].
    rewrite get_set_ne by done. intros H. left. by exists user'.
  - destruct Hq as [_ Hc]. unfold perform.
    by_presence id w.
    + simpl. destruct (decide (id = k)) as [<-|Hne].
      * rewrite get_set_eq. intros [= <-]. left. exists old. split; [done |].
        rewrite lookup_insert_ne by done.
        by rewrite lookup_union, Hc, (left_id None _).
      * rewrite get_set_ne by done. intros H. left. by exists user'.
    + simpl. intros H. left. by exists user'.
  - unfold perform. by_presence id w.
    + simpl. destruct (decide (id = k)) as [<-|Hne].
      * by rewrite get_delete_eq.
      * rewrite get_delete_ne by done. intros H. left. by exists user'.
    + simpl. intros H. left. by exists user'.
  - simpl. intros H. left. by exists user'.
  - simpl. intros H. left. by exists user'.
Qed.

Lemma run_createdAt clock (ops : list op) (w : world) :
  Forall quiet ops → NoDup (JsMap.keys (users w)) →
  ∀ k user', JsMap.get k (users (run clock ops w).2) = Some user' →
    (∃ user, JsMap.get k (users w) = Some user
             ∧ user' !! "createdAt" = user !! "createdAt")
    ∨ ∃ n, k = VNum n ∧ nextId w ≤ n.
Proof.
  intros Hops. revert w. induction Hops as [|o ops Ho _ IH]; intros w Hnd k user'.
  - simpl. intros H. left. by exists user'.
  - rewrite run_cons. cbn [snd]. intros Hget.
    destruct (perform_stamps clock o w Hnd) as (Hnd1 & _ & _).
    destruct (IH _ Hnd1 _ _ Hget) as [(u1 & Hu1 & Heq) | (n & -> & Hn)].
    + destruct (perform_createdAt clock o w Ho Hnd _ _ Hu1)
        as [(u & Hu & Heq0) | ->].
      * left. exists u. split; [done | congruence].
      * right. exists (nextId w). split; [done | lia].
    + right. exists n. split; [done |].
      pose proof (perform_nextId_le clock o w). lia.
Qed.

(** In every run of quiet calls, a record keeps the [createdAt] it was
    created with for as long as it is in the Map: between two observations
    of the key the field is the same. *)
Theorem createdAt_kept clock (before between : list op)
    (k : value) (user user' : obj) :
  Forall quiet before → Forall quiet between →
  let w1 := (run clock before initial).2 in
  let w2 := (run clock between w1).2 in
  JsMap.get k (users w1) = Some user →
  JsMap.get k (users w2) = Some user' →
  user' !! "createdAt" = user !! "createdAt".
Proof.
  intros Hb1 Hb2 w1 w2 H1 H2.
  assert (Ht : tidy w1).
  { apply run_tidy; [| split; constructor].
    eapply Forall_impl; [exact Hb1 | apply quiet_supplies_no_id]. }
  destruct (run_stamped clock before) as [Hnd _]. fold w1 in Hnd.
  destruct (run_createdAt clock between w1 Hb2 Hnd _ _ H2)
    as [(u & Hu & Heq) | (n & -> & Hn)].
  - rewrite H1 in Hu. by injection Hu as <-.
  - by rewrite (tidy_fresh _ _ Ht Hn) in H1.
Qed.

Lemma createdAt_kept_witness :
  let clock := λ n : nat, Z.of_nat n in
  ∃ user user',
    JsMap.get (VNum 1) (users (run clock [Create ∅] initial).2) = Some user
    ∧ JsMap.get (VNum 1)
        (users (run clock [Update (VNum 1) {["name" := VStr "a"]}; Create ∅]
                  (run clock [Create ∅] initial).2).2) = Some user'
    ∧ user' !! "createdAt" = user !! "createdAt".
Proof.
  intros clock. eexists _, _. split; [reflexivity |]. split; [reflexivity |].
  refine (createdAt_kept clock [Create ∅]
            [Update (VNum 1) {["name" := VStr "a"]}; Create ∅] (VNum 1) _ _
            _ _ eq_refl eq_refl).
  - repeat constructor.
  - repeat constructor.
Defined.

(** ** The limiter on the boundary *)

(** With a window of 1000 ms and at most 2 requests: requests at 0 and 100
    go through, one at 200 is rejected, one at 1001 goes through again, and
    the key then holds the two latest timestamps that went through. *)
Example rate_limiter_boundary :
  RateLimiter.outcomes 1000 2
    [("c", 0); ("c", 100); ("c", 200); ("c", 1001)] ∅
    = [RateLimiter.Next; RateLimiter.Next; RateLimiter.Status429; RateLimiter.Next]
  ∧ RateLimiter.stored
      (RateLimiter.serve 1000 2
         [("c", 0); ("c", 100); ("c", 200); ("c", 1001)] ∅) "c"
    = [100; 1001].
Proof. split; reflexivity. Qed.

(** The Map of a limiter never holds more than [max] timestamps for a key
    (none at all when [max] is not positive). *)
Theorem limiter_bounded (windowMs max : Z) (calls : list (string * Z)) (key : string) :
  Z.of_nat (length (RateLimiter.stored (RateLimiter.serve windowMs max calls ∅) key))
    ≤ Z.max max 0.
Proof.
  assert (Hb : RateLimiter.bounded max (RateLimiter.serve windowMs max calls ∅)).
  { apply serve_bounded. intros k l. by rewrite lookup_empty. }
  unfold RateLimiter.stored.
  destruct (RateLimiter.serve windowMs max calls ∅ !! key) as [l|] eqn:Hkey; simpl.
  - by apply (Hb key).
  - lia.
Qed.

(** ** Deleted records *)

(** After a successful [deleteUser] the id is gone: a lookup returns
    [undefined], and a second delete or an update throws. *)
Theorem deleted_then_not_found clock (ops : list op) (id : value) (userData : obj) :
  let w := (run clock ops initial).2 in
  (deleteUser id w).1 = Return tt →
  let w' := (deleteUser id w).2 in
  (getUserById id w').1 = Return None
  ∧ (deleteUser id w').1 = Throw (Error "User not found")
  ∧ (updateUser clock id userData w').1 = Throw (Error "User not found").
Proof.
  intros w Hdel w'.
  assert (Hgone : JsMap.get id (users w') = None).
  { unfold w'. by_presence id w.
    - simpl. apply get_delete_eq. apply (run_stamped clock ops).
    - done. }
  split; [| split].
  - unfold getUserById, users_get. simpl. by rewrite Hgone.
  - by rewrite (deleteUser_absent _ _ Hgone).
  - by rewrite (updateUser_absent _ _ _ _ Hgone).
Qed.

Lemma deleted_then_not_found_witness :
  let w := (run (λ n, Z.of_nat n) [Create ∅] initial).2 in
  (getUserById (VNum 1) (deleteUser (VNum 1) w).2).1 = Return None.
Proof.
  intros w.
  exact (proj1 (deleted_then_not_found (λ n, Z.of_nat n) [Create ∅] (VNum 1) ∅
                  eq_refl)).
Defined.

(** ** parseInt on the id of a route *)

Section ParseIntFacts.

Import Validation.

Lemma digit_in_digit_char (d : Z) :
  0 ≤ d ≤ 9 →
  digit_in 10 (digit_char d) = Some d
  ∧ is_space (digit_char d) = false
  ∧ (digit_char d =? 45)%N = false
  ∧ (digit_char d =? 43)%N = false
  ∧ (digit_char d =? 120)%N = false
  ∧ (digit_char d =? 88)%N = false
  ∧ ((digit_char d =? 48)%N = true → d = 0).
Proof.
  intros Hd.
  assert (d = 0 ∨ d = 1 ∨ d = 2 ∨ d = 3 ∨ d = 4 ∨ d = 5 ∨ d = 6 ∨ d = 7
          ∨ d = 8 ∨ d = 9) as Hcases by lia.
  repeat destruct Hcases as [-> | Hcases]; try subst d;
    (repeat split; [reflexivity .. | by intros [=]]) || (repeat split; reflexivity).
Qed.

Lemma skip_space_blanks (blanks s : jsstring) :
  Forall (λ c, is_space c = true) blanks → skip_space (blanks ++ s) = skip_space s.
Proof.
  induction 1 as [|c blanks Hc _ IH]; simpl; [done |]. by rewrite Hc.
Qed.

Lemma digits_prefix_decimal (digits : list Z) (rest : jsstring) :
  Forall (λ d, 0 ≤ d ≤ 9) digits →
  (∀ c, head rest = Some c → digit_in 10 c = None) →
  digits_prefix 10 ((digit_char <$> digits) ++ rest) = digits.
Proof.
  intros Hds Hrest. induction Hds as [|d digits Hd _ IH]; simpl.
  - destruct rest as [|c rest]; simpl; [done |]. by rewrite (Hrest c).
  - destruct (digit_in_digit_char d Hd) as (-> & _). f_equal. exact IH.
Qed.

Lemma number_of_nonneg (digits : list Z) :
  Forall (λ d, 0 ≤ d ≤ 9) digits → 0 ≤ number_of 10 digits.
Proof.
  intros Hds. unfold number_of.
  assert (H : ∀ acc, 0 ≤ acc → 0 ≤ foldl (λ n d : Z, n * 10 + d) acc digits).
  { induction Hds as [|d digits Hd _ IH]; simpl; [done |].
    intros acc Hacc. apply IH. lia. }
  by apply H.
Qed.

Lemma nearest_double_exact (n : Z) :
  Z.abs n ≤ 9007199254740992 → nearest_double n = VNum n.
Proof.
  intros Hn. unfold nearest_double.
  by destruct (Z.leb_spec (Z.abs n) 9007199254740992); [| lia].
Qed.

(** What [parseInt] makes of a decimal numeral of value up to 2^53: white
    space before it and whatever follows its last digit are ignored, and a
    minus sign before the first digit negates it.  (A lone [0] followed by
    [x] or [X] starts a hexadecimal numeral instead; beyond 2^53 the
    result is the nearest double, not the integer.) *)
Theorem parseInt_decimal (blanks : jsstring) (digits : list Z) (rest : jsstring) :
  Forall (λ c, is_space c = true) blanks →
  digits ≠ [] →
  Forall (λ d, 0 ≤ d ≤ 9) digits →
  number_of 10 digits ≤ 9007199254740992 →
  (∀ c, head rest = Some c → digit_in 10 c = None) →
  ¬ (digits = [0] ∧ ∃ c, head rest = Some c ∧ (c = 120 ∨ c = 88)%N) →
  parseInt (blanks ++ (digit_char <$> digits) ++ rest)
    = VNum (number_of 10 digits)
  ∧ parseInt (blanks ++ [45%N] ++ (digit_char <$> digits) ++ rest)
    = VNum (- number_of 10 digits).
Proof.
  intros Hblanks Hne Hds Hsafe Hrest Hhex.
  pose proof (number_of_nonneg digits Hds) as Hpos.
  assert (Hprefix : strip_prefix ((digit_char <$> digits) ++ rest)
                    = (10, (digit_char <$> digits) ++ rest)).
  { destruct digits as [|d0 digits]; [done |].
    apply Forall_cons in Hds as [Hd0 Hds]. rewrite fmap_cons, <- app_comm_cons.
    destruct (digit_in_digit_char d0 Hd0) as (_ & _ & _ & _ & _ & _ & Hzero).
    destruct ((digit_char <$> digits) ++ rest) as [|c1 tail] eqn:Htail; [done |].
    simpl. destruct (digit_char d0 =? 48)%N eqn:H0; [| done]. simpl.
    specialize (Hzero eq_refl) as ->.
    destruct digits as [|d1 digits]; simpl in Htail.
    - subst rest.
      destruct (c1 =? 120)%N eqn:Hx; [| destruct (c1 =? 88)%N eqn:HX; [| done]].
      + exfalso. apply Hhex. split; [done |]. exists c1. split; [done |].
        left. by apply N.eqb_eq.
      + exfalso. apply Hhex. split; [done |]. exists c1. split; [done |].
        right. by apply N.eqb_eq.
    - injection Htail as <- _. apply Forall_cons in Hds as [Hd1 _].
      destruct (digit_in_digit_char d1 Hd1) as (_ & _ & _ & _ & -> & -> & _).
      done. }
  assert (Hdigits := digits_prefix_decimal digits rest Hds Hrest).
  assert (Hhead : ∃ d tail, 0 ≤ d ≤ 9
            ∧ (digit_char <$> digits) ++ rest = digit_char d :: tail).
  { destruct digits as [|d0 digits]; [done |].
    apply Forall_cons in Hds as [Hd0 _]. by exists d0, ((digit_char <$> digits) ++ rest). }
  destruct Hhead as (d & tail & Hd & Hhead).
  destruct (digit_in_digit_char d Hd) as (_ & Hsp & Hminus & Hplus & _).
  split.
  - unfold parseInt. rewrite skip_space_blanks by done.
    rewrite Hhead. simpl. rewrite Hsp. simpl. rewrite Hminus, Hplus.
    rewrite <- Hhead, Hprefix, Hdigits.
    destruct digits as [|d0 ds]; [done |].
    rewrite nearest_double_exact by lia. f_equal; lia.
  - unfold parseInt. rewrite skip_space_blanks by done.
    simpl. rewrite Hprefix, Hdigits.
    destruct digits as [|d0 ds]; [done |].
    rewrite nearest_double_exact by lia. f_equal; lia.
Qed.

End ParseIntFacts.

Lemma parseInt_decimal_witness :
  parseInt (Validation.lit " 12abc") = VNum 12
  ∧ parseInt (Validation.lit " -12abc") = VNum (-12).
Proof.
  refine (parseInt_decimal (Validation.lit " ") [1; 2] (Validation.lit "abc")
            _ _ _ _ _ _).
  - repeat constructor.
  - done.
  - repeat constructor; lia.
  - vm_compute. by intros [=].
  - intros c [= <-]. reflexivity.
  - intros [[=] _].
Defined.

(** ** The route handlers *)

(** The statuses of the six routes.  The health check and the listing
    always answer 200 and a POST always 201: the [catch] branches of
    [getUsers], [createUser] and [getUserById] are never taken.  The three
    routes with an id fail exactly when the number [parseInt] makes of the
    id (NaN when it is no numeral) is the key of no record, each with the
    message [User not found] and the store untouched, but with three
    different statuses: 404 for GET, 400 for PUT and 500 for DELETE. *)
Theorem http_status_table clock (r : APIServer.route) (req : APIServer.request)
    (w : world) :
  let res := (APIServer.setupRoutes clock r req w).1 in
  let w' := (APIServer.setupRoutes clock r req w).2 in
  match r, APIServer.addressed req w with
  | APIServer.GET_health, _ =>
      APIServer.status res = 200 ∧ users w' = users w ∧ nextId w' = nextId w
  | APIServer.GET_users, _ =>
      res = APIServer.Response 200 (APIServer.JsonUsers (JsMap.values (users w)))
      ∧ w' = w
  | APIServer.POST_users, _ =>
      APIServer.status res = 201
  | APIServer.GET_users_id, Some user =>
      res = APIServer.Response 200 (APIServer.JsonUser user) ∧ w' = w
  | APIServer.GET_users_id, None =>
      res = APIServer.Response 404 (APIServer.JsonError "User not found") ∧ w' = w
  | APIServer.PUT_users_id, Some _ =>
      APIServer.status res = 200
  | APIServer.PUT_users_id, None =>
      res = APIServer.Response 400 (APIServer.JsonError "User not found") ∧ w' = w
  | APIServer.DELETE_users_id, Some _ =>
      res = APIServer.Response 204 APIServer.Empty
  | APIServer.DELETE_users_id, None =>
      res = APIServer.Response 500 (APIServer.JsonError "User not found") ∧ w' = w
  end.
Proof.
  intros res w'. unfold res, w'. clear res w'.
  unfold APIServer.addressed.
  destruct r; cbn [APIServer.setupRoutes].
  - by destruct (JsMap.get (parseInt (APIServer.params_id req)) (users w)).
  - by destruct (JsMap.get (parseInt (APIServer.params_id req)) (users w)).
  - unfold APIServer.createUser. rewrite createUser_eq.
    by destruct (JsMap.get (parseInt (APIServer.params_id req)) (users w)).
  - unfold APIServer.getUserById, getUserById, users_get.
    by destruct (JsMap.get (parseInt (APIServer.params_id req)) (users w)).
  - unfold APIServer.updateUser.
    by by_presence (parseInt (APIServer.params_id req)) w.
  - unfold APIServer.deleteUser.
    by by_presence (parseInt (APIServer.params_id req)) w.
Qed.

Lemma setupRoutes_NoDup clock (r : APIServer.route) (req : APIServer.request)
    (w : world) :
  NoDup (JsMap.keys (users w)) →
  NoDup (JsMap.keys (users (APIServer.setupRoutes clock r req w).2)).
Proof.
  intros Hnd. destruct r; cbn [APIServer.setupRoutes]; try done.
  - unfold APIServer.createUser. rewrite createUser_eq. simpl.
    by apply NoDup_keys_set.
  - unfold APIServer.getUserById, getUserById, users_get.
    by destruct (JsMap.get (parseInt (APIServer.params_id req)) (users w)).
  - unfold APIServer.updateUser.
    by_presence (parseInt (APIServer.params_id req)) w; [| exact Hnd].
    simpl. by apply NoDup_keys_set.
  - unfold APIServer.deleteUser.
    by_presence (parseInt (APIServer.params_id req)) w; [| exact Hnd].
    simpl. by apply NoDup_keys_delete.
Qed.

Lemma serve_NoDup clock (reqs : list (APIServer.route * APIServer.request))
    (w : world) :
  NoDup (JsMap.keys (users w)) →
  NoDup (JsMap.keys (users (APIServer.serve clock reqs w).2)).
Proof.
  revert w. induction reqs as [|[r req] reqs IH]; intros w Hnd; [done |].
  simpl. pose proof (setupRoutes_NoDup clock r req w Hnd) as H1.
  destruct (APIServer.setupRoutes clock r req w) as [res w1]. simpl in H1.
  specialize (IH w1 H1). by destruct (APIServer.serve clock reqs w1).
Qed.

(** The life of a record over HTTP, after any sequence of requests: a POST
    answers 201 with the record (under the counter's value when the body
    has no [id]); if the record's id is a number, a GET whose id reads as
    that number answers 200 with the same record, a DELETE answers 204, and
    a GET after the DELETE answers 404. *)
Theorem http_life_cycle clock (reqs : list (APIServer.route * APIServer.request))
    (post : APIServer.request) :
  let w := (APIServer.serve clock reqs initial).2 in
  ∃ user w1,
    APIServer.createUser clock post w
      = (APIServer.Response 201 (APIServer.JsonUser user), w1)
    ∧ (lacks "id" (APIServer.body post) → prop user "id" = VNum (nextId w))
    ∧ ∀ (n : Z) (get del : APIServer.request),
        prop user "id" = VNum n →
        parseInt (APIServer.params_id get) = VNum n →
        parseInt (APIServer.params_id del) = VNum n →
        APIServer.getUserById get w1
          = (APIServer.Response 200 (APIServer.JsonUser user), w1)
        ∧ ∃ w2,
            APIServer.deleteUser del w1
              = (APIServer.Response 204 APIServer.Empty, w2)
            ∧ APIServer.getUserById get w2
              = (APIServer.Response 404 (APIServer.JsonError "User not found"), w2).
Proof.
  intros w.
  assert (Hnd : NoDup (JsMap.keys (users w))) by (apply serve_NoDup; constructor).
  eexists _, _. unfold APIServer.createUser. rewrite createUser_eq.
  split; [reflexivity |].
  match goal with |- context [prop ?u "id"] => set (user := u) end.
  split.
  { intros Hno. unfold user, prop. rewrite !lookup_insert_ne by done.
    rewrite lookup_union, Hno. simpl. by rewrite lookup_singleton_eq. }
  intros n get del Hid Hget Hdel. rewrite Hid.
  set (w1 := World (JsMap.set (VNum n) user (users w)) (nextId w + 1) (S (S (reads w)))).
  assert (Hin : JsMap.get (VNum n) (users w1) = Some user) by apply get_set_eq.
  split.
  - unfold APIServer.getUserById. rewrite Hget. unfold getUserById, users_get.
    by rewrite Hin.
  - eexists. unfold APIServer.deleteUser. rewrite Hdel.
    rewrite deleteUser_present by (by rewrite Hin). split; [reflexivity |].
    unfold APIServer.getUserById. rewrite Hget.
    unfold getUserById, users_get. simpl.
    rewrite get_delete_eq; [done |]. by apply NoDup_keys_set.
Qed.

Lemma http_life_cycle_witness :
  let clock := λ n : nat, Z.of_nat n in
  let w1 := (APIServer.createUser clock (APIServer.Request [] ∅) initial).2 in
  (APIServer.getUserById (APIServer.Request (Validation.lit "1") ∅) w1).1
  = APIServer.Response 200
      (APIServer.JsonUser
         (<["updatedAt" := VIso 1]>
            (<["createdAt" := VIso 0]> (∅ ∪ {["id" := VNum 1]})))).
Proof.
  intros clock w1.
  destruct (http_life_cycle clock [] (APIServer.Request [] ∅))
    as (user & w1' & Hpost & _ & Hlife).
  unfold APIServer.createUser in Hpost. rewrite createUser_eq in Hpost.
  injection Hpost as <- <-.
  exact (f_equal fst (proj1 (Hlife 1 (APIServer.Request (Validation.lit "1") ∅)
                               (APIServer.Request (Validation.lit "1") ∅)
                               eq_refl eq_refl eq_refl))).
Defined.

(** ** What the limiter lets through *)

Section RateLimiterRuns.

Import RateLimiter.

Variables windowMs max : Z.

(** A request of [key]: the outcome and the timestamps of the key
    afterwards, from the timestamps of the key before. *)
Lemma limiter_own key now (requests : gmap string (list Z)) :
  let valid := pruned windowMs now (stored requests key) in
  (rateLimiter windowMs max key now requests).1
    = (if Z.of_nat (length valid) >=? max then Status429 else Next)
  ∧ stored (rateLimiter windowMs max key now requests).2 key
    = (if Z.of_nat (length valid) >=? max then stored requests key
       else valid ++ [now]).
Proof.
  intros valid. rewrite handle_eq. fold valid.
  destruct (_ >=? max); simpl; split; try done.
  - unfold stored. destruct (requests !! key) eqn:Hkey; [by rewrite Hkey |].
    by rewrite lookup_insert_eq.
  - unfold stored. by rewrite lookup_insert_eq.
Qed.

(** A request of another key leaves the timestamps of [key] alone. *)
Lemma limiter_other key k now (requests : gmap string (list Z)) :
  k ≠ key →
  stored (rateLimiter windowMs max k now requests).2 key = stored requests key.
Proof.
  intros Hne. rewrite handle_eq. unfold stored.
  destruct (_ >=? max); simpl.
  - destruct (requests !! k); [done |]. by rewrite lookup_insert_ne.
  - by rewrite lookup_insert_ne.
Qed.

Lemma pruned_pruned (now now' : Z) (l : list Z) :
  now ≤ now' → pruned windowMs now' (pruned windowMs now l) = pruned windowMs now' l.
Proof.
  intros Hle. unfold pruned. rewrite list_filter_filter.
  apply list_filter_iff. intros t. lia.
Qed.

Lemma length_filter_impl {A} (P Q : A → Prop) `{!∀ x, Decision (P x)}
    `{!∀ x, Decision (Q x)} (l : list A) :
  (∀ x, P x → Q x) → (length (filter P l) ≤ length (filter Q l))%nat.
Proof.
  intros HPQ. induction l as [|x l IH]; [done |].
  rewrite !filter_cons. destruct (decide (P x)) as [HP|HP].
  - rewrite decide_True by auto. simpl. lia.
  - destruct (decide (Q x)); simpl; lia.
Qed.

Lemma passed_sparse key (calls : list (string * Z)) :
  ∀ (requests : gmap string (list Z)) (sofar : list Z) (T : Z),
    (∀ now, T ≤ now →
       pruned windowMs now (stored requests key) = pruned windowMs now sofar) →
    (∀ t, Z.of_nat (length (within windowMs t sofar)) ≤ Z.max max 0) →
    StronglySorted Z.le (calls.*2) →
    Forall (λ call : string * Z, T ≤ call.2) calls →
    ∀ t, Z.of_nat (length (within windowMs t
                             (sofar ++ passed windowMs max key calls requests)))
         ≤ Z.max max 0.
Proof.
  induction calls as [|[k now] calls IH]; intros requests sofar T Hagree Hsparse Hsorted HT.
  - simpl. by rewrite app_nil_r.
  - simpl in Hsorted. apply StronglySorted_cons in Hsorted as [Hlater Hsorted].
    apply Forall_cons in HT as [HTnow _]. simpl in HTnow.
    assert (Hrest : Forall (λ call : string * Z, now ≤ call.2) calls).
    { rewrite Forall_fmap in Hlater. exact Hlater. }
    cbn [passed].
    destruct (decide (k = key)) as [->|Hne].
    + destruct (limiter_own key now requests) as [Hout Hst].
      rewrite Hout. destruct (_ >=? max) eqn:Hfull.
      * simpl. apply (IH _ _ now); try done.
        intros now' Hnow'. rewrite Hst. apply Hagree. lia.
      * rewrite app_assoc. apply (IH _ _ now); try done.
        -- intros now' Hnow'. rewrite Hst. unfold pruned at 1 3.
           rewrite !filter_app. f_equal.
           fold (pruned windowMs now' (pruned windowMs now (stored requests key))).
           fold (pruned windowMs now' sofar).
           rewrite pruned_pruned by done. apply Hagree. lia.
        -- intros t. unfold within at 1. rewrite filter_app, length_app.
           fold (within windowMs t sofar). fold (within windowMs t [now]).
           destruct (decide (now ≤ t)) as [Hle|Hgt].
           ++ assert (length (within windowMs t sofar)
                      ≤ length (pruned windowMs now sofar))%nat as Hin.
              { unfold within, pruned. apply length_filter_impl. intros x. lia. }
              rewrite <- (Hagree now HTnow) in Hin.
              assert (length (within windowMs t [now]) ≤ 1)%nat
                by apply (length_filter _ [now]).
              lia.
           ++ unfold within at 2. rewrite (filter_cons_False _ now) by lia.
              rewrite filter_nil. simpl. specialize (Hsparse t). lia.
    + pose proof (limiter_other key k now requests Hne) as Hother.
      destruct (rateLimiter windowMs max k now requests) as [out requests'].
      simpl in Hother.
      destruct out; simpl; (apply (IH _ _ now); [| done ..]);
        intros now' Hnow'; rewrite Hother; apply Hagree; lia.
Qed.

(** The limiter limits: when the requests arrive in the order of their
    clock readings, then in any window of [windowMs] milliseconds at most
    [max] requests of a key have been let through (none if [max] is not
    positive), whatever the other keys do. *)
Theorem rate_bound key (calls : list (string * Z)) (t : Z) :
  StronglySorted Z.le (calls.*2) →
  Z.of_nat (length (within windowMs t (passed windowMs max key calls ∅)))
    ≤ Z.max max 0.
Proof.
  intros Hsorted. destruct calls as [|[k now] calls]; [simpl; lia |].
  apply (passed_sparse key ((k, now) :: calls) ∅ [] now); try done.
  - intros t'. simpl. lia.
  - simpl in Hsorted. apply StronglySorted_cons in Hsorted as [Hlater _].
    constructor; [simpl; lia |]. rewrite Forall_fmap in Hlater. exact Hlater.
Qed.

Lemma passed_own_requests key (calls : list (string * Z)) :
  ∀ r1 r2 : gmap string (list Z),
    stored r1 key = stored r2 key →
    passed windowMs max key calls r1
      = passed windowMs max key (from_key key calls) r2.
Proof.
  induction calls as [|[k now] calls IH]; intros r1 r2 Hst; [done |].
  unfold from_key. rewrite filter_cons. cbn [passed fst].
  destruct (decide (k = key)) as [->|Hne].
  - cbn [passed]. rewrite decide_True by done.
    destruct (limiter_own key now r1) as [Ho1 Hs1].
    destruct (limiter_own key now r2) as [Ho2 Hs2].
    rewrite Ho1, Ho2, Hst. f_equal. apply IH. rewrite Hs1, Hs2, Hst. done.
  - pose proof (limiter_other key k now r1 Hne) as Hother.
    destruct (rateLimiter windowMs max k now r1) as [out r1']. simpl in Hother.
    destruct out; simpl; apply IH; by rewrite Hother.
Qed.

(** Clients do not affect each other: which requests of a key are let
    through is the same whether or not requests of other keys come in
    between. *)
Theorem limiter_keys_independent key (calls : list (string * Z)) :
  passed windowMs max key calls ∅
    = passed windowMs max key (from_key key calls) ∅.
Proof. by apply passed_own_requests. Qed.

End RateLimiterRuns.

Lemma rate_bound_witness :
  Z.of_nat (length (within 1000 1100
     (passed 1000 2 "a"
        [("a", 0); ("b", 50); ("a", 100); ("a", 200); ("a", 1001)] ∅)))
  ≤ Z.max 2 0.
Proof.
  apply rate_bound. simpl. repeat constructor; lia.
Defined.

(** ** How the methods compose *)

Lemma delete_set_fresh k v m :
  JsMap.get k m = None → JsMap.delete k (JsMap.set k v m) = m.
Proof.
  induction m as [|[k' v'] m IH]; simpl.
  - by rewrite decide_True.
  - destruct (decide (k = k')); [done |]. intros H. simpl.
    rewrite decide_False by done. by rewrite IH.
Qed.

(** In every run whose field maps carry no [id], creating a user and
    deleting it again leaves the collection exactly as it was, the same
    records in the same order; only the counter is not taken back. *)
Theorem create_then_delete clock (ops : list op) (userData : obj) :
  Forall supplies_no_id ops →
  lacks "id" userData →
  let w := (run clock ops initial).2 in
  ∃ user w1 w2,
    createUser clock userData w = (Return user, w1)
    ∧ deleteUser (prop user "id") w1 = (Return tt, w2)
    ∧ users w2 = users w
    ∧ nextId w2 = nextId w + 1.
Proof.
  intros Hops Hno w.
  assert (Ht : tidy w) by (apply run_tidy; [done | split; constructor]).
  pose proof (tidy_fresh w (nextId w) Ht ltac:(lia)) as Hfresh.
  eexists _, _, _. split; [apply createUser_eq |].
  match goal with |- context [prop ?u "id"] => set (user := u) end.
  assert (Hid : prop user "id" = VNum (nextId w)).
  { unfold user, prop. rewrite !lookup_insert_ne by done.
    rewrite lookup_union, Hno. simpl. by rewrite lookup_singleton_eq. }
  rewrite Hid. split.
  - apply deleteUser_present. simpl. rewrite get_set_eq. by eexists.
  - simpl. split; [by apply delete_set_fresh | done].
Qed.

Lemma create_then_delete_witness :
  let clock := λ n : nat, Z.of_nat n in
  ∃ user w1 w2,
    createUser clock {["name" := VStr "b"]} (run clock [Create ∅] initial).2
      = (Return user, w1)
    ∧ deleteUser (prop user "id") w1 = (Return tt, w2)
    ∧ users w2 = users (run clock [Create ∅] initial).2
    ∧ nextId w2 = nextId (run clock [Create ∅] initial).2 + 1.
Proof.
  intros clock.
  refine (create_then_delete clock [Create ∅] {["name" := VStr "b"]} _ _).
  - repeat constructor.
  - reflexivity.
Defined.

Lemma length_set_present k v m :
  is_Some (JsMap.get k m) → length (JsMap.set k v m) = length m.
Proof.
  intros H. rewrite <- (length_fmap fst (JsMap.set k v m)), <- (length_fmap fst m).
  fold (JsMap.keys (JsMap.set k v m)). fold (JsMap.keys m).
  by rewrite keys_set_present.
Qed.

Lemma perform_count clock (o : op) (w : world) :
  supplies_no_id o → tidy w →
  (length (users (perform clock o w).2)
   + (if is_deleted (perform clock o w).1 then 1 else 0)
   = length (users w) + (if is_created (perform clock o w).1 then 1 else 0))%nat.
Proof.
  intros Ho Ht. destruct o as [d|id d|id|id|]; cbn [supplies_no_id] in Ho;
    [| unfold perform | unfold perform | simpl; lia | simpl; lia].
  - destruct (perform_create clock d w Ho) as (user & w' & Hp & _ & _ & Hu).
    rewrite Hp. simpl. rewrite Hu.
    rewrite (set_fresh _ _ _ (tidy_fresh w (nextId w) Ht ltac:(lia))).
    rewrite length_app. simpl. lia.
  - by_presence id w; simpl; [| lia].
    rewrite length_set_present by (by rewrite Hget). lia.
  - by_presence id w; simpl; [| lia].
    destruct (get_Some_split _ _ _ Hget) as (m1 & m2 & Hm & _ & _ & Hdel).
    rewrite Hdel, Hm, !length_app. simpl. lia.
Qed.

(** In every run from the initial service whose field maps carry no [id],
    the number of users listed is the number of creates minus the number
    of deletes that succeeded. *)
Theorem listing_count clock (ops : list op) :
  Forall supplies_no_id ops →
  let rs := (run clock ops initial).1 in
  let w := (run clock ops initial).2 in
  (length (JsMap.values (users w)) + length (List.filter is_deleted rs)
   = length (List.filter is_created rs))%nat.
Proof.
  intros Hops.
  assert (H : ∀ w0, tidy w0 →
    (length (users (run clock ops w0).2)
     + length (List.filter is_deleted (run clock ops w0).1)
     = length (users w0) + length (List.filter is_created (run clock ops w0).1))%nat).
  { induction Hops as [|o ops Ho _ IH]; intros w0 Ht; [simpl; lia |].
    rewrite run_cons. cbn [fst snd List.filter].
    pose proof (perform_count clock o w0 Ho Ht) as Hstep.
    specialize (IH _ (perform_tidy clock o w0 Ho Ht)).
    destruct (is_deleted (perform clock o w0).1),
             (is_created (perform clock o w0).1); simpl; lia. }
  intros rs w. unfold JsMap.values. rewrite length_fmap.
  specialize (H initial ltac:(split; constructor)). simpl in H. exact H.
Qed.

Lemma listing_count_witness :
  (length (JsMap.values
     (users (run (λ n, Z.of_nat n)
               [Create ∅; Create ∅; Delete (VNum 1); Delete (VNum 7)] initial).2))
   + length (List.filter is_deleted
       (run (λ n, Z.of_nat n)
          [Create ∅; Create ∅; Delete (VNum 1); Delete (VNum 7)] initial).1)
   = length (List.filter is_created
       (run (λ n, Z.of_nat n)
          [Create ∅; Create ∅; Delete (VNum 1); Delete (VNum 7)] initial).1))%nat.
Proof.
  refine (listing_count (λ n, Z.of_nat n)
            [Create ∅; Create ∅; Delete (VNum 1); Delete (VNum 7)] _).
  repeat constructor.
Defined.

(** Each call touches at most the record under one key: the key of the
    created record for a create, the id of the call for an update or a
    delete, none for the lookups.  Every other record is found unchanged
    afterwards, whatever the field maps hold and whether or not the call
    fails. *)
Theorem other_records_untouched clock (o : op) (w : world) (k : value) :
  match o with
  | Create userData => k ≠ default (VNum (nextId w)) (userData !! "id")
  | Update id _ | Delete id => k ≠ id
  | GetById _ | GetAll => True
  end →
  JsMap.get k (users (perform clock o w).2) = JsMap.get k (users w).
Proof.
  destruct o as [d|id d|id|id|]; intros Hk; unfold perform; [| | | done | done].
  - destruct (created_id clock d w) as (user & w' & Hc & Hid & _).
    rewrite createUser_eq in Hc. injection Hc as Hu Hw.
    rewrite createUser_eq. simpl. rewrite Hu, Hid. by rewrite get_set_ne.
  - by_presence id w; simpl; [| done]. by rewrite get_set_ne.
  - by_presence id w; simpl; [| done]. by rewrite get_delete_ne.
Qed.

Lemma other_records_untouched_witness :
  JsMap.get (VNum 1)
    (users (perform (λ n, Z.of_nat n) (Update (VNum 2) {["id" := VNum 1]})
              (run (λ n, Z.of_nat n) [Create ∅; Create ∅] initial).2).2)
  = JsMap.get (VNum 1) (users (run (λ n, Z.of_nat n) [Create ∅; Create ∅] initial).2).
Proof.
  refine (other_records_untouched (λ n, Z.of_nat n)
            (Update (VNum 2) {["id" := VNum 1]})
            (run (λ n, Z.of_nat n) [Create ∅; Create ∅] initial).2 (VNum 1) _).
  done.
Defined.

(** ** More on the validators *)

Section ValidationMore.

Import Validation.

Lemma no_at_in_plain (l : list N) :
  Forall plain l → filter (λ c : N, c = at_sign) l = [].
Proof.
  induction 1 as [|c l [_ Hc] _ IH]; [done |].
  by rewrite filter_cons_False.
Qed.

Lemma plain_no_space (l : jsstring) :
  Forall plain l → Forall (λ c, is_space c = false) l.
Proof. intros H. eapply Forall_impl; [exact H |]. by intros c [? _]. Qed.

(** Whatever [validateEmail] accepts, the string the test is run on (the
    argument's [ToString]) has at least five code units, exactly one [@],
    not at its start, no white space, and a dot; [undefined], [null] and
    the booleans are rejected. *)
Theorem validateEmail_accepts_only (v : jsval) :
  validateEmail v = true →
  let s : list N := ToString v in
  length (filter (λ c : N, c = at_sign) s) = 1%nat
  ∧ head s ≠ Some at_sign
  ∧ Forall (λ c, is_space c = false) s
  ∧ dot ∈ s
  ∧ (5 ≤ length s)%nat
  ∧ v ≠ JUndefined ∧ v ≠ JNull ∧ (∀ b, v ≠ JBool b).
Proof.
  intros Hv s.
  assert (Hs : validateEmail (JString s) = true) by exact Hv.
  apply validateEmail_shape in Hs
    as (loc & domain & tld & Heq & Hloc & Hdom & Htld & H1 & H2 & H3).
  rewrite Heq.
  split; [| split; [| split; [| split; [| split]]]].
  - rewrite !filter_app, (no_at_in_plain loc H1), (no_at_in_plain domain H2),
      (no_at_in_plain tld H3). reflexivity.
  - destruct loc as [|c loc]; [done |]. simpl.
    apply Forall_cons in H1 as [[_ Hc] _]. congruence.
  - rewrite !Forall_app. repeat split; try (by apply plain_no_space);
      by repeat constructor.
  - rewrite !elem_of_app. right. right. right. left. apply list_elem_of_here.
  - rewrite !length_app. simpl.
    destruct loc, domain, tld; simpl; try done; lia.
  - clear -Hv. split; [| split].
    + intros ->. vm_compute in Hv. discriminate Hv.
    + intros ->. vm_compute in Hv. discriminate Hv.
    + intros b ->. destruct b; vm_compute in Hv; discriminate Hv.
Qed.

Lemma validateEmail_accepts_only_witness :
  length (filter (λ c : N, c = at_sign) (lit "a@b.co")) = 1%nat
  ∧ (5 ≤ length (lit "a@b.co"))%nat.
Proof.
  destruct (validateEmail_accepts_only (JString (lit "a@b.co")) eq_refl)
    as (H1 & _ & _ & _ & H5 & _).
  exact (conj H1 H5).
Defined.

(** [validateUsername] and [validatePassword] answer with a boolean only
    on a truthy argument; on [undefined], [null], [false] or the empty
    string they return the argument itself, which is falsy but is [false]
    only when the argument was. *)
Theorem length_checks_return_argument (v : jsval) :
  (truthy v = false → validateUsername v = v ∧ validatePassword v = v)
  ∧ (truthy v = true →
       validateUsername v
         = JBool (js_ge (length_of v) 3 && js_le (length_of v) 50)
       ∧ validatePassword v = JBool (js_ge (length_of v) 8)).
Proof.
  unfold validateUsername, validatePassword, js_and. split; intros Hv.
  - by rewrite !Hv.
  - rewrite Hv. split; [| done].
    by destruct (js_ge (length_of v) 3).
Qed.

Lemma length_checks_return_argument_witness :
  validateUsername (JString []) = JString []
  ∧ validatePassword (JString []) = JString [].
Proof. exact (proj1 (length_checks_return_argument (JString [])) eq_refl). Defined.

End ValidationMore.

(** ** Recovery of a client *)

(** A client is let through again as soon as one of its counted requests
    has left the window: in any state of a limiter with a positive [max],
    a request of a key passes when one of the key's stored timestamps is
    not later than [now - windowMs] (or when the key holds fewer than [max]
    timestamps). *)
Theorem limiter_recovers (windowMs max : Z) (calls : list (string * Z))
    (key : string) (now : Z) :
  let requests := RateLimiter.serve windowMs max calls ∅ in
  0 < max →
  (∃ t0, t0 ∈ RateLimiter.stored requests key ∧ t0 ≤ now - windowMs)
  ∨ Z.of_nat (length (RateLimiter.stored requests key)) < max →
  (RateLimiter.rateLimiter windowMs max key now requests).1 = RateLimiter.Next.
Proof.
  intros requests Hmax Hroom.
  assert (Hb : Z.of_nat (length (RateLimiter.stored requests key)) ≤ Z.max max 0).
  { assert (Hall : RateLimiter.bounded max requests).
    { apply serve_bounded. intros k l. by rewrite lookup_empty. }
    unfold RateLimiter.stored.
    destruct (requests !! key) as [l|] eqn:Hkey; simpl; [by apply (Hall key) | lia]. }
  destruct (limiter_own windowMs max key now requests) as [-> _].
  assert (Z.of_nat (length (RateLimiter.pruned windowMs now
                              (RateLimiter.stored requests key))) < max) as Hlt.
  { unfold RateLimiter.pruned. destruct Hroom as [(t0 & Hin & Hold) | Hfew].
    - pose proof (length_filter_lt (λ time : Z, time > now - windowMs) _ t0 Hin
                    ltac:(simpl; lia)). lia.
    - pose proof (length_filter (λ time : Z, time > now - windowMs)
                    (RateLimiter.stored requests key)). lia. }
  destruct (_ >=? max) eqn:Hge; [| done]. apply Z.geb_le in Hge. lia.
Qed.

Lemma limiter_recovers_witness :
  (RateLimiter.rateLimiter 1000 2 "c" 1001
     (RateLimiter.serve 1000 2 [("c", 0); ("c", 100); ("c", 200)] ∅)).1
  = RateLimiter.Next.
Proof.
  refine (limiter_recovers 1000 2 [("c", 0); ("c", 100); ("c", 200)] "c" 1001 _ _).
  - lia.
  - left. exists 0. split; [| lia]. vm_compute. apply list_elem_of_here.
Defined.

(** ** Listing and lookup agree *)

Lemma get_of_entry k v m :
  NoDup (JsMap.keys m) → (k, v) ∈ m → JsMap.get k m = Some v.
Proof.
  unfold JsMap.keys. induction m as [|[k' v'] m IH]; simpl.
  - intros _ H. by apply elem_of_nil in H.
  - intros Hnd Hin. apply NoDup_cons in Hnd as [Hk' Hnd].
    apply elem_of_cons in Hin as [[= -> ->] | Hin].
    + by rewrite decide_True.
    + rewrite decide_False; [by apply IH |].
      intros ->. apply Hk'. apply list_elem_of_fmap. by exists (k', v).
Qed.

Lemma entry_of_get k v m : JsMap.get k m = Some v → (k, v) ∈ m.
Proof.
  induction m as [|[k' v'] m IH]; simpl; [done |].
  destruct (decide (k = k')) as [->|Hne].
  - intros [= ->]. apply list_elem_of_here.
  - intros H. apply list_elem_of_further. by apply IH.
Qed.

(** In every run from the initial service whose field maps carry no [id],
    the users [getAllUsers] lists are exactly those [getUserById] finds:
    each listed user is returned by a lookup of its own [id], and every
    user a lookup returns is in the list. *)
Theorem listed_users_are_found clock (ops : list op) (user : obj) :
  Forall supplies_no_id ops →
  let w := (run clock ops initial).2 in
  (user ∈ JsMap.values (users w) →
     (getUserById (prop user "id") w).1 = Return (Some user))
  ∧ (∀ id, (getUserById id w).1 = Return (Some user) →
       user ∈ JsMap.values (users w) ∧ prop user "id" = id).
Proof.
  intros Hops w.
  assert (Ht : tidy w) by (apply run_tidy; [done | split; constructor]).
  destruct (run_stamped clock ops) as [Hnd _]. fold w in Hnd.
  destruct Ht as [Hall _]. rewrite Forall_forall in Hall.
  unfold getUserById, users_get, JsMap.values. simpl. split.
  - intros Hin. apply list_elem_of_fmap in Hin as ([k u] & -> & He).
    destruct (Hall _ He) as [Hid _]. simpl in *. rewrite Hid.
    f_equal. by apply get_of_entry.
  - intros id [= Hget]. apply entry_of_get in Hget.
    split.
    + apply list_elem_of_fmap. by exists (id, user).
    + by destruct (Hall _ Hget) as [Hid _].
Qed.

Lemma listed_users_are_found_witness :
  let clock := λ n : nat, Z.of_nat n in
  let user : obj :=
    <["updatedAt" := VIso 1]> (<["createdAt" := VIso 0]> (∅ ∪ {["id" := VNum 1]})) in
  (getUserById (prop user "id") (run clock [Create ∅; Create ∅] initial).2).1
  = Return (Some user).
Proof.
  intros clock user.
  refine (proj1 (listed_users_are_found clock [Create ∅; Create ∅] user _) _).
  - repeat constructor.
  - vm_compute. apply list_elem_of_here.
Defined.
